(** * news_agent: a shallow embedding of [src/news_agent.py]

    The development follows the Python module function by function:
    settings resolution ([env_or_config]), the region table
    ([iso_region_to_params]), feed URLs ([google_news_search_feed]), the
    feed plan built at the start of [main], the two admission predicates
    ([within_last_days], [matches_keywords]) and the aggregation tail of
    [main] ([uniq], the descending sort on [sort_key], the slice
    [items[:max_items]]).

    Conventions.
    - Python [str] values are Rocq strings (byte strings holding the UTF-8
      encoding of the text).
    - [str.lower] and [str.upper] are library functions over all of Unicode.
      [Text.lower] is [str.lower] on ASCII text; [Text.lower_greek] is
      [str.lower] on text of ASCII characters and Greek letters, with the
      final-sigma rule; [Text.upper] is [str.upper] as far as its result can
      be ASCII.  Statements that depend on what the case map does to a text
      say which texts they are about.  [matches_keywords_with] is
      [matches_keywords] with the case map as a parameter.
    - A Python [dict] read with [.get] is a [gmap]; a missing key is [None].
    - Instants are integers: [time.mktime] yields whole seconds since the
      epoch and [datetime] values are counted in microseconds since the
      epoch.  [time.mktime] reads a broken-down time in the time zone of the
      process, so it is a parameter of the model; [mktime_utc] and
      [mktime_tokyo] are its values in two zones, and [timegm] is the instant
      of a UTC tuple.
    - [within_last_days] is the answer of the date check; the exceptions the
      [datetime] library raises outside the years 1 to 9999 are in
      [Exn.within_last_days]. *)

From Stdlib Require Import ZArith Ascii String List Bool Lia Sorted Permutation.
From stdpp Require Import base decidable option list strings gmap sorting.

Local Open Scope string_scope.
Local Open Scope Z_scope.

#[local] Set Warnings "-clear-no-such-hyp".

(** ** Text *)

Module Text.

Definition is_ascii_lower (c : ascii) : bool :=
  let n := N_of_ascii c in ((97 <=? n) && (n <=? 122))%N.

Definition is_ascii_upper (c : ascii) : bool :=
  let n := N_of_ascii c in ((65 <=? n) && (n <=? 90))%N.

Definition is_ascii_digit (c : ascii) : bool :=
  let n := N_of_ascii c in ((48 <=? n) && (n <=? 57))%N.

Definition upper_char (c : ascii) : ascii :=
  if is_ascii_lower c then ascii_of_N (N_of_ascii c - 32) else c.

Definition lower_char (c : ascii) : ascii :=
  if is_ascii_upper c then ascii_of_N (N_of_ascii c + 32) else c.

(** A byte of ASCII text. *)
Definition is_ascii_char (c : ascii) : bool := (N_of_ascii c <? 128)%N.

(** ASCII text: every byte is below 128. *)
Fixpoint is_ascii (s : string) : bool :=
  match s with
  | EmptyString => true
  | String c s' => is_ascii_char c && is_ascii s'
  end.

(** The upper case of the ASCII letters of a text. *)
Fixpoint upper_ascii (s : string) : string :=
  match s with
  | EmptyString => EmptyString
  | String c s' => String (upper_char c) (upper_ascii s')
  end.

(** The characters outside ASCII whose upper case is made of ASCII letters,
    in UTF-8: [ß] (C3 9F), dotless [ı] (C4 B1), long [ſ] (C5 BF). *)
Definition upper_two_bytes (a b : ascii) : option string :=
  match N_of_ascii a, N_of_ascii b with
  | 195%N, 159%N => Some "SS"
  | 196%N, 177%N => Some "I"
  | 197%N, 191%N => Some "S"
  | _, _ => None
  end.

(** The same for the ligatures U+FB00 to U+FB06 (EF AC 80 to EF AC 86). *)
Definition upper_three_bytes (a b c : ascii) : option string :=
  match N_of_ascii a, N_of_ascii b, N_of_ascii c with
  | 239%N, 172%N, 128%N => Some "FF"
  | 239%N, 172%N, 129%N => Some "FI"
  | 239%N, 172%N, 130%N => Some "FL"
  | 239%N, 172%N, 131%N => Some "FFI"
  | 239%N, 172%N, 132%N => Some "FFL"
  | 239%N, 172%N, 133%N => Some "ST"
  | 239%N, 172%N, 134%N => Some "ST"
  | _, _, _ => None
  end.

Fixpoint upper_special (s : string) : string :=
  match s with
  | EmptyString => EmptyString
  | String a s1 =>
      match s1 with
      | EmptyString => String a EmptyString
      | String b s2 =>
          match upper_two_bytes a b with
          | Some r => r ++ upper_special s2
          | None =>
              match s2 with
              | EmptyString => String a (upper_special s1)
              | String c s3 =>
                  match upper_three_bytes a b c with
                  | Some r => r ++ upper_special s3
                  | None => String a (upper_special s1)
                  end
              end
          end
      end
  end.

(** [s.upper()], as far as the result can be ASCII: exact on the ASCII
    letters and on the ten other characters whose upper case is made of
    ASCII letters.  Any other character is kept as it is; its upper case is
    not ASCII either, so a comparison of the result with an ASCII string
    comes out as for [str.upper]. *)
Definition upper (s : string) : string := upper_special (upper_ascii s).

(** [s.lower()] on ASCII text: the small letters of the ASCII capitals. *)
Fixpoint lower (s : string) : string :=
  match s with
  | EmptyString => EmptyString
  | String c s' => String (lower_char c) (lower s')
  end.

(** *** Greek capitals and the final sigma *)









(** [p] is a prefix of [s]. *)
Fixpoint starts_with (s p : string) {struct p} : bool :=
  match p, s with
  | EmptyString, _ => true
  | String a p', String b s' => Ascii.eqb a b && starts_with s' p'
  | String _ _, EmptyString => false
  end.

(** [k in t] on strings: [k] occurs in [t] as a contiguous substring. *)
Fixpoint contains (t k : string) : bool :=
  starts_with t k ||
  match t with
  | EmptyString => false
  | String _ t' => contains t' k
  end.

(** Truthiness of a string: [bool(s)]. *)
Definition nonempty (s : string) : bool :=
  match s with EmptyString => false | String _ _ => true end.

(** [a or b] on strings. *)
Definition str_or (a b : string) : string := if nonempty a then a else b.

(** Two characters are equal up to the case of ASCII letters: they are
    equal, or one is a capital letter [A]..[Z] and the other one the small
    letter 32 places after it. *)
Definition same_char_ci (a b : ascii) : bool :=
  Ascii.eqb a b
  || (is_ascii_upper a && (N_of_ascii b =? N_of_ascii a + 32)%N)
  || (is_ascii_upper b && (N_of_ascii a =? N_of_ascii b + 32)%N).

(** Two strings are equal up to case: same length, characterwise equal
    up to case. *)
Fixpoint same_ci (s1 s2 : string) : bool :=
  match s1, s2 with
  | EmptyString, EmptyString => true
  | String a s1', String b s2' => same_char_ci a b && same_ci s1' s2'
  | _, _ => false
  end.


End Text.

(** ** Settings resolution *)

(** [a or b] where [a] and [b] are [str] or [None]: the first operand when
    it is truthy (a non-empty string), otherwise the second one whatever it
    is. *)
Definition opt_or (a b : option string) : option string :=
  match a with
  | Some s => if Text.nonempty s then a else b
  | None => b
  end.

(** The process environment, [os.getenv key]. *)
Definition getenv (env : gmap string string) (key : string) : option string :=
  env !! key.

(** [config.get("email", {}).get(key.lower())]: the [email] section of the
    configuration is a string-to-string dictionary when it is present. *)
Definition email_setting (email : option (gmap string string)) (key : string)
  : option string :=
  default ∅ email !! Text.lower key.

Definition env_or_config (env : gmap string string)
    (email : option (gmap string string)) (key : string)
    (default : option string) : option string :=
  opt_or (opt_or (getenv env key) (email_setting email key)) default.

(** ** Region table *)

Definition locale_params : Type := string * string * string.

Definition mapping : gmap string locale_params :=
  list_to_map
    [ ("US", ("en-US", "US", "US:en"));
      ("GB", ("en-GB", "GB", "GB:en"));
      ("CA", ("en-CA", "CA", "CA:en"));
      ("AU", ("en-AU", "AU", "AU:en"));
      ("IN", ("en-IN", "IN", "IN:en"));
      ("FR", ("fr",    "FR", "FR:fr"));
      ("DE", ("de",    "DE", "DE:de"));
      ("ES", ("es",    "ES", "ES:es"));
      ("IT", ("it",    "IT", "IT:it"));
      ("BR", ("pt-BR", "BR", "BR:pt")) ].

Definition default_params : locale_params := ("en-US", "US", "US:en").

(** The region codes of the table, and whether a code equals one of them
    up to case. *)
Definition table_codes : list string := elements (dom mapping).

Definition in_table (region_code : string) : bool :=
  existsb (Text.same_ci region_code) table_codes.

Definition iso_region_to_params (region_code : string) : locale_params :=
  default default_params (mapping !! Text.upper region_code).

(** ** Feed URLs *)

Module Url.

Definition hex_digit (n : N) : ascii :=
  if (n <? 10)%N then ascii_of_N (48 + n) else ascii_of_N (55 + n).

(** The characters [urllib.parse.quote] never escapes: ASCII letters,
    digits and [_.-~]. *)
Definition always_safe (c : ascii) : bool :=
  Text.is_ascii_upper c || Text.is_ascii_lower c || Text.is_ascii_digit c
  || Ascii.eqb c "_" || Ascii.eqb c "." || Ascii.eqb c "-" || Ascii.eqb c "~".

(** One byte of [quote_plus]: kept when safe, a space becomes [+], any
    other byte becomes [%XX] in upper-case hexadecimal. *)
Definition quote_byte (c : ascii) : string :=
  if always_safe c then String c EmptyString
  else if Ascii.eqb c " " then "+"
  else String "%" (String (hex_digit (N_of_ascii c / 16))
                  (String (hex_digit (N_of_ascii c mod 16)) EmptyString)).

Fixpoint quote_plus (s : string) : string :=
  match s with
  | EmptyString => EmptyString
  | String c s' => quote_byte c ++ quote_plus s'
  end.

End Url.

Definition google_news_search_feed (query region_code : string) : string :=
  let '(hl, gl, ceid) := iso_region_to_params region_code in
  let q := Url.quote_plus query in
  "https://news.google.com/rss/search?q=" ++ q ++ "+when:1d&hl=" ++ hl
    ++ "&gl=" ++ gl ++ "&ceid=" ++ ceid.

(** ** Configuration and the feed plan of [main] *)

(** One element of the [sectors] list: a dictionary read with
    [sector.get("name", "Sector")] and [sector.get("queries", [])]. *)
Record sector_cfg := {
  sector_name_key : option string;
  sector_queries_key : option (list string)
}.

(** The parsed [config.yaml], restricted to the keys [main] reads for the
    pipeline.  [None] is a key that is absent from the file. *)
Record config := {
  cfg_regions : option (list string);
  cfg_sectors : option (list sector_cfg);
  cfg_queries : option (list string);
  cfg_keywords_include : option (list string);
  cfg_keywords_exclude : option (list string);
  cfg_max_items : option Z;
  cfg_days_window : option Z
}.

(** A feed of the plan: [(sector_name, region_code, url)]. *)
Definition feed : Type := string * string * string.

(** The inner loops [for r in regions: for q in queries: feeds.append(...)]. *)
Definition feeds_for (label : string) (regions queries : list string)
  : list feed :=
  flat_map (fun r =>
    List.map (fun q => (label, r, google_news_search_feed q r)) queries)
    regions.

(** The block of [main] that fills [feeds]. *)
Definition build_feeds (cfg : config) : list feed :=
  let regions := default ["US"] (cfg_regions cfg) in
  let sectors := default [] (cfg_sectors cfg) in
  match sectors with
  | [] =>
      let base_queries := default ["technology"; "business"] (cfg_queries cfg) in
      feeds_for "General" regions base_queries
  | _ :: _ =>
      flat_map (fun sector =>
        let sector_name := default "Sector" (sector_name_key sector) in
        let queries := default [] (sector_queries_key sector) in
        feeds_for sector_name regions queries)
        sectors
  end.

(** ** Time *)

(** [time.struct_time], the nine-field tuple feedparser stores in
    [published_parsed]. *)
Record struct_time := {
  tm_year : Z; tm_mon : Z; tm_mday : Z;
  tm_hour : Z; tm_min : Z; tm_sec : Z;
  tm_wday : Z; tm_yday : Z; tm_isdst : Z
}.

(** Days from 1970-01-01 to the given civil date (proleptic Gregorian). *)
Definition days_from_civil (y m d : Z) : Z :=
  let y' := if m <=? 2 then y - 1 else y in
  let era := y' / 400 in
  let yoe := y' - era * 400 in
  let mp := if m <=? 2 then m + 9 else m - 3 in
  let doy := (153 * mp + 2) / 5 + d - 1 in
  let doe := yoe * 365 + yoe / 4 - yoe / 100 + doy in
  era * 146097 + doe - 719468.

(** The instant of a broken-down UTC time, in epoch seconds
    ([calendar.timegm]); feedparser stores publish times as UTC tuples. *)
Definition timegm (t : struct_time) : Z :=
  days_from_civil (tm_year t) (tm_mon t) (tm_mday t) * 86400
  + tm_hour t * 3600 + tm_min t * 60 + tm_sec t.

(** What [time.mktime] computes in a time zone that stays [east] seconds
    ahead of UTC all year: it reads the tuple as local time, and as local
    summer time, one hour ahead, when [tm_isdst] is positive. *)
Definition mktime_fixed_offset (east : Z) (t : struct_time) : Z :=
  timegm t - east - (if 0 <? tm_isdst t then 3600 else 0).

(** [time.mktime] when the local time zone of the process is UTC. *)
Definition mktime_utc (t : struct_time) : Z := mktime_fixed_offset 0 t.

(** [time.mktime] when it is Asia/Tokyo, nine hours ahead of UTC. *)
Definition mktime_tokyo (t : struct_time) : Z := mktime_fixed_offset 32400 t.

Definition usec_per_sec : Z := 1000000.
Definition usec_per_day : Z := 86400 * usec_per_sec.

(** The range of [datetime], from 0001-01-01 00:00:00 to
    9999-12-31 23:59:59.999999 UTC, in microseconds since the epoch. *)
Definition datetime_min : Z := -62135596800 * usec_per_sec.
Definition datetime_max : Z := 253402300799 * usec_per_sec + 999999.

Definition representable (t : Z) : bool :=
  (datetime_min <=? t) && (t <=? datetime_max).

(** The largest number of days a [timedelta] holds. *)
Definition timedelta_max_days : Z := 999999999.

(** ** Records *)

(** A feedparser entry as [main] reads it: every attribute may be missing.
    [e_source] is the [source] attribute, a dictionary. *)
Record entry := {
  e_title : option string;
  e_summary : option string;
  e_link : option string;
  e_source : option (gmap string string);
  e_published : option string;
  e_published_parsed : option struct_time
}.

(** The dictionary appended to [items]. *)
Record item := {
  title : string;
  summary : string;
  link : string;
  source : option string;
  sector : string;
  region : string;
  published : option string;
  published_parsed : option struct_time
}.

#[global] Instance struct_time_eq_dec : EqDecision struct_time.
Proof. solve_decision. Defined.

#[global] Instance item_eq_dec : EqDecision item.
Proof. solve_decision. Defined.

(** ** Admission *)

Definition any_in (t : string) (ks : list string) : bool :=
  existsb (fun k => Text.contains t (Text.lower k)) ks.

(** [matches_keywords(text, includes, excludes)]; [text] may be [None]. *)
Definition matches_keywords (text : option string)
    (includes excludes : list string) : bool :=
  let t := Text.lower (default "" text) in
  if match includes with [] => false | _ :: _ => negb (any_in t includes) end
  then false
  else if match excludes with [] => false | _ :: _ => any_in t excludes end
  then false
  else true.

(** The same two functions with the case map [str.lower] as a parameter;
    [matches_keywords] is the instance for ASCII text. *)
Definition any_in_with (lower : string -> string) (t : string)
    (ks : list string) : bool :=
  existsb (fun k => Text.contains t (lower k)) ks.

Definition matches_keywords_with (lower : string -> string)
    (text : option string) (includes excludes : list string) : bool :=
  let t := lower (default "" text) in
  if match includes with
     | [] => false
     | _ :: _ => negb (any_in_with lower t includes)
     end
  then false
  else if match excludes with
          | [] => false
          | _ :: _ => any_in_with lower t excludes
          end
  then false
  else true.

Section WithClock.

(** [time.mktime]: it depends on the time zone of the process, so it is a
    parameter of the model. *)
Variable mktime : struct_time -> Z.

(** [within_last_days(published_parsed, days)], with [now] the reading of
    [datetime.now(timezone.utc)] in microseconds since the epoch: the answer
    of the check when nothing is raised (see [Exn.within_last_days]). *)
Definition within_last_days (now : Z) (published_parsed : option struct_time)
    (days : Z) : bool :=
  match published_parsed with
  | None => true
  | Some pp =>
      let published_dt := mktime pp * usec_per_sec in
      now - days * usec_per_day <=? published_dt
  end.

(** The key function of the sort in [main]. *)
Definition sort_key (x : item) : Z :=
  match published_parsed x with
  | Some pp => mktime pp
  | None => 0
  end.

End WithClock.

(** [within_last_days] with the exceptions of the [datetime] library:
    [None] stands for a raised exception.  [datetime.fromtimestamp] raises
    when the publish time is outside the range of [datetime],
    [timedelta(days=days)] when [days] is beyond its limit, and the
    subtraction when the start of the window is outside the range. *)
Module Exn.

Definition within_last_days (mktime : struct_time -> Z) (now : Z)
    (published_parsed : option struct_time) (days : Z) : option bool :=
  match published_parsed with
  | None => Some true
  | Some pp =>
      let published_dt := mktime pp * usec_per_sec in
      if negb (representable published_dt) then None
      else if (days <? - timedelta_max_days) || (timedelta_max_days <? days)
      then None
      else
        let start := now - days * usec_per_day in
        if negb (representable start) then None
        else Some (start <=? published_dt)
  end.

End Exn.

(** The key function handed to [uniq] in [main]:
    [x["link"] or x["title"]]. *)
Definition dedup_key (x : item) : string := Text.str_or (link x) (title x).

(** ** uniq *)

Section Uniq.
Context {A K : Type} `{Countable K}.
Variable key : A -> K.

(** The loop of [uniq]: [seen] is the set, [res] the list being built. *)
Fixpoint uniq_loop (seen : gset K) (res : list A) (seq : list A) : list A :=
  match seq with
  | [] => res
  | x :: rest =>
      let k := key x in
      if decide (k ∈ seen) then uniq_loop seen res rest
      else uniq_loop ({[k]} ∪ seen) (res ++ [x]) rest
  end.

Definition uniq (seq : list A) : list A := uniq_loop ∅ [] seq.

End Uniq.

(** ** Sorting and capping *)

Section Sort.
Context {A : Type}.
Variable key : A -> Z.

(** Insertion of [x] in front of a list sorted by descending key: [x]
    goes before the first element whose key is not larger than its own. *)
Fixpoint insert_desc (x : A) (l : list A) : list A :=
  match l with
  | [] => [x]
  | y :: l' => if key y <=? key x then x :: y :: l' else y :: insert_desc x l'
  end.

(** [l.sort(key=key, reverse=True)]: the stable sort by descending key. *)
Definition sort_desc (l : list A) : list A := foldr insert_desc [] l.

End Sort.

(** [l[:m]] for an integer [m]: a negative bound counts from the end. *)
Definition slice_to {A : Type} (m : Z) (l : list A) : list A :=
  let n := Z.of_nat (length l) in
  let stop := if m <? 0 then Z.max (n + m) 0 else Z.min m n in
  take (Z.to_nat stop) l.

(** ** The pipeline of [main] *)

Definition newline : string := String (ascii_of_N 10) EmptyString.

Section Pipeline.

Variable mktime : struct_time -> Z.

(** [feedparser.parse(url).entries]. *)
Variable parse : string -> list entry.

(** [clock n] is the reading of [datetime.now] while the [n]-th entry of
    the run is examined. *)
Variable clock : nat -> Z.

(** The body of the loop over the entries of one feed: [None] stands for
    [continue], [Some x] for [items.append(x)]. *)
Definition examine (now days : Z) (includes excludes : list string)
    (sector_name region_code : string) (e : entry) : option item :=
  if negb (within_last_days mktime now (e_published_parsed e) days) then None
  else
    let title := default "" (e_title e) in
    let summary := default "" (e_summary e) in
    let link := default "" (e_link e) in
    let source :=
      match e_source e with
      | Some d => d !! "title"
      | None => None
      end in
    let blob := title ++ newline ++ summary ++ newline ++ link ++ newline
                ++ default "" source in
    if negb (matches_keywords (Some blob) includes excludes) then None
    else Some {| title := title; summary := summary; link := link;
                 source := source; sector := sector_name;
                 region := region_code;
                 published := e_published e;
                 published_parsed := e_published_parsed e |}.

Fixpoint scan_entries (n : nat) (days : Z) (includes excludes : list string)
    (sector_name region_code : string) (es : list entry) : list item :=
  match es with
  | [] => []
  | e :: es' =>
      let rest := scan_entries (S n) days includes excludes
                    sector_name region_code es' in
      match examine (clock n) days includes excludes
              sector_name region_code e with
      | Some x => x :: rest
      | None => rest
      end
  end.

(** The loop over [feeds]; [n] counts the entries examined so far. *)
Fixpoint collect (n : nat) (days : Z) (includes excludes : list string)
    (feeds : list feed) : list item :=
  match feeds with
  | [] => []
  | (sector_name, region_code, url) :: feeds' =>
      let es := parse url in
      scan_entries n days includes excludes sector_name region_code es
      ++ collect (n + length es)%nat days includes excludes feeds'
  end.

(** Deduplicate, sort, cap: the statements of [main] after the loops. *)
Definition aggregate (items : list item) (max_items : Z) : list item :=
  slice_to max_items (sort_desc (sort_key mktime) (uniq dedup_key items)).

(** The [items] handed to the template. *)
Definition digest_items (cfg : config) : list item :=
  let includes := default [] (cfg_keywords_include cfg) in
  let excludes := default [] (cfg_keywords_exclude cfg) in
  let max_items := default 40 (cfg_max_items cfg) in
  let days_window := default 1 (cfg_days_window cfg) in
  aggregate
    (collect 0 days_window includes excludes (build_feeds cfg))
    max_items.

End Pipeline.

(** ** The specification's wording, for comparison *)

(** A value that is present and non-empty. *)
Definition present_nonempty (v : option string) : bool :=
  match v with
  | Some s => Text.nonempty s
  | None => false
  end.

(** Three-tier resolution as the specification words it: the first of the
    override and the configured value that is present and non-empty, else
    the fallback. *)
Definition first_present_nonempty (override configured fallback : option string)
  : option string :=
  if present_nonempty override then override
  else if present_nonempty configured then configured
  else fallback.

(** The order of a list sorted by descending key: keys do not increase. *)
Definition key_ge {A : Type} (key : A -> Z) (a b : A) : Prop := key b <= key a.

(** [a] stands at an earlier position of [l] than [b]. *)
Definition occurs_before {A : Type} (l : list A) (a b : A) : Prop :=
  exists i j, (i < j)%nat /\ l !! i = Some a /\ l !! j = Some b.

(** ** Sample data *)

(** Broken-down times used in the examples (weekday, day of year and DST
    flag as feedparser fills them for a UTC time). *)
Definition st_2026_11_03_noon : struct_time :=
  {| tm_year := 2026; tm_mon := 11; tm_mday := 3;
     tm_hour := 12; tm_min := 0; tm_sec := 0;
     tm_wday := 1; tm_yday := 307; tm_isdst := 0 |}.

Definition st_2026_11_02_noon : struct_time :=
  {| tm_year := 2026; tm_mon := 11; tm_mday := 2;
     tm_hour := 12; tm_min := 0; tm_sec := 0;
     tm_wday := 0; tm_yday := 306; tm_isdst := 0 |}.


Definition st_2026_11_04_noon : struct_time :=
  {| tm_year := 2026; tm_mon := 11; tm_mday := 4;
     tm_hour := 12; tm_min := 0; tm_sec := 0;
     tm_wday := 2; tm_yday := 308; tm_isdst := 0 |}.

Definition st_2026_11_03_1300 : struct_time :=
  {| tm_year := 2026; tm_mon := 11; tm_mday := 3;
     tm_hour := 13; tm_min := 0; tm_sec := 0;
     tm_wday := 1; tm_yday := 307; tm_isdst := 0 |}.

Definition st_epoch : struct_time :=
  {| tm_year := 1970; tm_mon := 1; tm_mday := 1;
     tm_hour := 0; tm_min := 0; tm_sec := 0;
     tm_wday := 3; tm_yday := 1; tm_isdst := 0 |}.

Definition st_1969_12_31 : struct_time :=
  {| tm_year := 1969; tm_mon := 12; tm_mday := 31;
     tm_hour := 0; tm_min := 0; tm_sec := 0;
     tm_wday := 2; tm_yday := 365; tm_isdst := 0 |}.

(** A record of the default plan, as [main] builds it from an entry that
    has a title, a link and possibly a publish time. *)
Definition news (title link : string) (pp : option struct_time) : item :=
  {| title := title; summary := ""; link := link; source := None;
     sector := "General"; region := "US"; published := None;
     published_parsed := pp |}.

Definition news_noon : item :=
  news "Noon" "https://example.org/noon" (Some st_2026_11_03_noon).

Definition news_eve : item :=
  news "Day before" "https://example.org/eve" (Some st_2026_11_02_noon).

Definition news_undated : item :=
  news "Undated" "https://example.org/undated" None.

Definition news_epoch : item :=
  news "Epoch" "https://example.org/epoch" (Some st_epoch).

Definition news_1969 : item :=
  news "Old" "https://example.org/old" (Some st_1969_12_31).

(** A sample run: every feed returns the same entries, and the clock
    stands at 2026-11-03 12:00:00 UTC. *)
Definition feed_entry (title link : string) (pp : option struct_time) : entry :=
  {| e_title := Some title; e_summary := None; e_link := Some link;
     e_source := None; e_published := None; e_published_parsed := pp |}.

Definition parse_recent (url : string) : list entry :=
  [ feed_entry "Noon" "https://example.org/noon" (Some st_2026_11_03_noon);
    feed_entry "Day before" "https://example.org/eve" (Some st_2026_11_02_noon);
    feed_entry "Undated" "https://example.org/undated" None ].

Definition parse_old (url : string) : list entry :=
  [ feed_entry "Old" "https://example.org/old" (Some st_1969_12_31);
    feed_entry "Undated" "https://example.org/undated" None ].

Definition clock_2026 (n : nat) : Z :=
  mktime_utc st_2026_11_03_noon * usec_per_sec.

(** [config.yaml] with one region, one general query and the given
    [max_items] and [days_window]. *)
Definition one_feed_config (max_items days_window : option Z) : config :=
  {| cfg_regions := Some ["US"]; cfg_sectors := None;
     cfg_queries := Some ["news"]; cfg_keywords_include := None;
     cfg_keywords_exclude := None; cfg_max_items := max_items;
     cfg_days_window := days_window |}.

(** ** Characters of a string *)

(** Every character of [s] satisfies [p]. *)
Fixpoint all_chars (p : ascii -> bool) (s : string) : bool :=
  match s with
  | EmptyString => true
  | String c s' => p c && all_chars p s'
  end.

(** Number of occurrences of the character [c] in [s]: [s.count(c)]. *)
Fixpoint count_char (c : ascii) (s : string) : nat :=
  match s with
  | EmptyString => O
  | String d s' => ((if Ascii.eqb c d then 1 else 0) + count_char c s')%nat
  end.

(** The characters [quote_plus] writes: the unreserved ones, [+] and [%]. *)
Definition quoted_char (c : ascii) : bool :=
  Url.always_safe c || Ascii.eqb c "+" || Ascii.eqb c "%".

(** The value of a hexadecimal digit. *)
Definition hex_value (c : ascii) : option N :=
  let n := N_of_ascii c in
  if Text.is_ascii_digit c then Some (n - 48)%N
  else if ((65 <=? n) && (n <=? 70))%N then Some (n - 55)%N
  else if ((97 <=? n) && (n <=? 102))%N then Some (n - 87)%N
  else None.

(** Decoding of a quoted string, as [urllib.parse.unquote_plus] does on
    bytes: [+] is a space, [%XX] the byte [XX], anything else itself. *)
Fixpoint unquote_plus (s : string) : string :=
  match s with
  | EmptyString => EmptyString
  | String c s' =>
      if Ascii.eqb c "+" then String " " (unquote_plus s')
      else if Ascii.eqb c "%" then
        match s' with
        | String h1 (String h2 s'') =>
            match hex_value h1, hex_value h2 with
            | Some a, Some b => String (ascii_of_N (16 * a + b)) (unquote_plus s'')
            | _, _ => String c (unquote_plus s')
            end
        | _ => String c (unquote_plus s')
        end
      else String c (unquote_plus s')
  end.

(** The text [main] hands to [matches_keywords] for a record with these
    fields: [f"{title}\n{summary}\n{link}\n{source or ''}"]. *)
Definition item_blob (x : item) : string :=
  title x ++ newline ++ summary x ++ newline ++ link x ++ newline
  ++ default "" (source x).

(** The number of entries the feeds of a plan return when parsed. *)
Definition entries_count (parse : string -> list entry) (feeds : list feed)
  : nat :=
  sum_list (List.map (fun f : feed => length (parse f.2)) feeds).

(** ** Mail settings of [main] *)

(** The six settings [main] resolves with [env_or_config]. *)
Record mail_settings := {
  smtp_server : option string;
  smtp_port : option string;
  smtp_user : option string;
  smtp_pass : option string;
  to_email : option string;
  from_email : option string
}.

Definition resolve_mail_settings (env : gmap string string)
    (email : option (gmap string string)) : mail_settings :=
  let smtp_user := env_or_config env email "SMTP_USER" None in
  {| smtp_server := env_or_config env email "SMTP_SERVER" (Some "smtp.gmail.com");
     smtp_port := env_or_config env email "SMTP_PORT" (Some "465");
     smtp_user := smtp_user;
     smtp_pass := env_or_config env email "SMTP_PASS" None;
     to_email := env_or_config env email "TO_EMAIL" None;
     from_email :=
       env_or_config env email "FROM_EMAIL"
         (opt_or smtp_user (Some "no-reply@example.com")) |}.

(** [all([smtp_user, smtp_pass, to_email, from_email])]: when it is false
    [main] prints a message and exits with status 1. *)
Definition credentials_present (s : mail_settings) : bool :=
  forallb present_nonempty [smtp_user s; smtp_pass s; to_email s; from_email s].

(** * Properties *)

(** ** Case mapping *)

Module TextFacts.
Import Text.

Lemma upper_lower_char c : upper_char (lower_char c) = upper_char c.
Proof. destruct c as [[] [] [] [] [] [] [] []]; reflexivity. Qed.

Lemma lower_upper_char c : lower_char (upper_char c) = lower_char c.
Proof. destruct c as [[] [] [] [] [] [] [] []]; reflexivity. Qed.

Lemma lower_lower_char c : lower_char (lower_char c) = lower_char c.
Proof. destruct c as [[] [] [] [] [] [] [] []]; reflexivity. Qed.

Lemma upper_lower s : upper_ascii (lower s) = upper_ascii s.
Proof. induction s as [|c s IH]; simpl; [done|]. by rewrite upper_lower_char, IH. Qed.

Lemma lower_upper s : lower (upper_ascii s) = lower s.
Proof. induction s as [|c s IH]; simpl; [done|]. by rewrite lower_upper_char, IH. Qed.

Lemma lower_idem s : lower (lower s) = lower s.
Proof. induction s as [|c s IH]; simpl; [done|]. by rewrite lower_lower_char, IH. Qed.

(** All 256 bytes. *)
Lemma all_bytes c : In c (List.map ascii_of_nat (seq 0 256)).
Proof.
  apply in_map_iff. exists (nat_of_ascii c). split.
  - apply ascii_nat_embedding.
  - apply in_seq. pose proof (nat_ascii_bounded c). lia.
Qed.

Lemma same_char_ci_spec a b : same_char_ci a b = true <-> lower_char a = lower_char b.
Proof.
  assert (Hall : forallb (fun x => forallb (fun y =>
            Bool.eqb (same_char_ci x y) (Ascii.eqb (lower_char x) (lower_char y)))
            (List.map ascii_of_nat (seq 0 256)))
            (List.map ascii_of_nat (seq 0 256)) = true) by (vm_compute; reflexivity).
  rewrite forallb_forall in Hall. specialize (Hall a (all_bytes a)).
  rewrite forallb_forall in Hall. specialize (Hall b (all_bytes b)).
  apply Bool.eqb_prop in Hall. rewrite Hall. apply Ascii.eqb_eq.
Qed.

Lemma same_ci_lower s1 s2 : same_ci s1 s2 = true <-> lower s1 = lower s2.
Proof.
  revert s2. induction s1 as [|a s1 IH]; intros [|b s2]; simpl; try easy.
  rewrite andb_true_iff, same_char_ci_spec, IH. split.
  - intros [-> ->]. reflexivity.
  - intros Heq. injection Heq. auto.
Qed.

Lemma same_ci_upper_ascii s1 s2 :
  same_ci s1 s2 = true <-> upper_ascii s1 = upper_ascii s2.
Proof.
  rewrite same_ci_lower. split; intros Heq.
  - rewrite <- (upper_lower s1), <- (upper_lower s2). by rewrite Heq.
  - rewrite <- (lower_upper s1), <- (lower_upper s2). by rewrite Heq.
Qed.

Lemma same_ci_refl s : same_ci s s = true.
Proof. by apply same_ci_lower. Qed.

Lemma same_ci_upper_self s : same_ci s (upper_ascii s) = true.
Proof. apply same_ci_lower. by rewrite lower_upper. Qed.

(** Texts that are equal up to case have the same upper case. *)
Lemma same_ci_upper s1 s2 : same_ci s1 s2 = true -> upper s1 = upper s2.
Proof. intros Hci. unfold upper. by apply same_ci_upper_ascii in Hci as ->. Qed.

Lemma is_ascii_char_upper c : is_ascii_char (upper_char c) = is_ascii_char c.
Proof. destruct c as [[] [] [] [] [] [] [] []]; reflexivity. Qed.

Lemma is_ascii_upper_ascii s : is_ascii (upper_ascii s) = is_ascii s.
Proof.
  induction s as [|c s IH]; [done|]. simpl. by rewrite is_ascii_char_upper, IH.
Qed.

Lemma upper_two_bytes_ascii a b : is_ascii_char a = true -> upper_two_bytes a b = None.
Proof. destruct a as [[] [] [] [] [] [] [] []]; (discriminate || reflexivity). Qed.

Lemma upper_three_bytes_ascii a b c :
  is_ascii_char a = true -> upper_three_bytes a b c = None.
Proof. destruct a as [[] [] [] [] [] [] [] []]; (discriminate || reflexivity). Qed.

Lemma upper_special_ascii s : is_ascii s = true -> upper_special s = s.
Proof.
  induction s as [|a s IH]; [done|]. intros Hs. cbn [is_ascii] in Hs.
  apply andb_true_iff in Hs as [Ha Hs]. specialize (IH Hs).
  cbn [upper_special]. destruct s as [|b s]; [done|].
  rewrite (upper_two_bytes_ascii _ _ Ha).
  destruct s as [|c s]; [by rewrite IH|].
  by rewrite (upper_three_bytes_ascii _ _ _ Ha), IH.
Qed.

(** On ASCII text [upper] is the upper case of the letters. *)
Lemma upper_of_ascii s : is_ascii s = true -> upper s = upper_ascii s.
Proof.
  intros Hs. unfold upper. apply upper_special_ascii.
  by rewrite is_ascii_upper_ascii.
Qed.

End TextFacts.

(** ** Settings resolution *)

Lemma opt_or_present a b : present_nonempty a = true -> opt_or a b = a.
Proof. destruct a as [s|]; simpl; [|done]. by intros ->. Qed.

Lemma opt_or_absent a b : present_nonempty a = false -> opt_or a b = b.
Proof. destruct a as [s|]; simpl; [|done]. by intros ->. Qed.

(** C9. [env_or_config] returns the environment value when it is a
    non-empty string, else the configured value of the [email] section when
    that one is non-empty, else the default it was given. *)
Theorem env_or_config_three_tier (env : gmap string string)
    (email : option (gmap string string)) (key : string)
    (fallback : option string) :
  env_or_config env email key fallback =
    first_present_nonempty (env !! key)
      (default ∅ email !! Text.lower key) fallback.
Proof.
  unfold env_or_config, first_present_nonempty, getenv, email_setting.
  destruct (present_nonempty (env !! key)) eqn:Ho.
  - by rewrite !(opt_or_present _ _ Ho).
  - rewrite (opt_or_absent _ _ Ho).
    destruct (present_nonempty (default ∅ email !! Text.lower key)) eqn:Hc.
    + by rewrite (opt_or_present _ _ Hc).
    + by rewrite (opt_or_absent _ _ Hc).
Qed.

(** ** Region table *)

Lemma in_table_upper code :
  Text.is_ascii code = true ->
  is_Some (mapping !! Text.upper code) -> in_table code = true.
Proof.
  intros Hascii Hk. unfold in_table, table_codes. apply existsb_exists.
  exists (Text.upper code). split.
  - apply list_elem_of_In, elem_of_elements, elem_of_dom, Hk.
  - rewrite (TextFacts.upper_of_ascii _ Hascii).
    apply TextFacts.same_ci_upper_self.
Qed.

(** C8, as the code has it.  [iso_region_to_params] is a function on all
    strings; codes that are equal up to case get the same parameters, and an
    ASCII code that equals no code of the table up to case gets the default
    triple. *)
Theorem iso_region_to_params_lookup (code : string) :
  (forall code', Text.same_ci code code' = true ->
     iso_region_to_params code' = iso_region_to_params code)
  /\ (Text.is_ascii code = true -> in_table code = false ->
      iso_region_to_params code = ("en-US", "US", "US:en")).
Proof.
  split.
  - intros code' Hci. unfold iso_region_to_params.
    apply TextFacts.same_ci_upper in Hci. by rewrite Hci.
  - intros Hascii Hout. unfold iso_region_to_params.
    destruct (mapping !! Text.upper code) as [p|] eqn:Hm; [|reflexivity].
    rewrite (in_table_upper _ Hascii) in Hout; [discriminate|]. by rewrite Hm.
Qed.

Lemma iso_region_to_params_lookup_witness :
  iso_region_to_params "fR" = iso_region_to_params "Fr"
  /\ iso_region_to_params "jp" = ("en-US", "US", "US:en").
Proof.
  split.
  - apply (proj1 (iso_region_to_params_lookup "Fr")). reflexivity.
  - apply (proj2 (iso_region_to_params_lookup "jp")); vm_compute; reflexivity.
Defined.

(** C8 as stated fails outside ASCII: [str.upper] turns the dotless [ı]
    into [I], so the code "ıt", which equals no code of the table up to case,
    gets the parameters of "IT" and not the default triple. *)
Lemma iso_region_to_params_dotless_counterexample :
  in_table "ıt" = false
  /\ Text.upper "ıt" = "IT"
  /\ iso_region_to_params "ıt" = ("it", "IT", "IT:it")
  /\ iso_region_to_params "ıt" <> ("en-US", "US", "US:en").
Proof.
  split; [vm_compute; reflexivity|]. split; [vm_compute; reflexivity|].
  split; [vm_compute; reflexivity|]. vm_compute. discriminate.
Qed.

(** ** The feed plan *)

Example feed_url_example :
  google_news_search_feed "artificial intelligence" "US"
  = "https://news.google.com/rss/search?q=artificial+intelligence+when:1d&hl=en-US&gl=US&ceid=US:en".
Proof. vm_compute. reflexivity. Qed.

Example quote_plus_example : Url.quote_plus "R&D 100%" = "R%26D+100%25".
Proof. vm_compute. reflexivity. Qed.

Lemma build_feeds_no_sectors cfg :
  default [] (cfg_sectors cfg) = [] ->
  build_feeds cfg =
    feeds_for "General" (default ["US"] (cfg_regions cfg))
      (default ["technology"; "business"] (cfg_queries cfg)).
Proof. intros Hs. unfold build_feeds. by rewrite Hs. Qed.

(** C1, as the code has it.  With no sectors and no [queries] key in the
    configuration, the plan holds for each region, in order, one "General"
    feed for "technology" and one for "business".  A [queries] key that is
    present is used as it is, so an empty list gives an empty plan. *)
Theorem build_feeds_builtin_queries (cfg : config) :
  default [] (cfg_sectors cfg) = [] ->
  (cfg_queries cfg = None ->
   build_feeds cfg =
     flat_map (fun r =>
       [ ("General", r, google_news_search_feed "technology" r);
         ("General", r, google_news_search_feed "business" r) ])
       (default ["US"] (cfg_regions cfg)))
  /\ (forall qs, cfg_queries cfg = Some qs ->
      build_feeds cfg =
        feeds_for "General" (default ["US"] (cfg_regions cfg)) qs).
Proof.
  intros Hs. rewrite (build_feeds_no_sectors _ Hs). split.
  - intros ->. reflexivity.
  - intros qs ->. reflexivity.
Qed.

Lemma build_feeds_builtin_queries_witness :
  build_feeds {| cfg_regions := Some ["GB"]; cfg_sectors := None;
                 cfg_queries := None; cfg_keywords_include := None;
                 cfg_keywords_exclude := None; cfg_max_items := None;
                 cfg_days_window := None |}
  = [ ("General", "GB", google_news_search_feed "technology" "GB");
      ("General", "GB", google_news_search_feed "business" "GB") ].
Proof.
  apply (proj1 (build_feeds_builtin_queries
    {| cfg_regions := Some ["GB"]; cfg_sectors := None;
       cfg_queries := None; cfg_keywords_include := None;
       cfg_keywords_exclude := None; cfg_max_items := None;
       cfg_days_window := None |} eq_refl)).
  reflexivity.
Defined.

(** C1 as stated fails: with [sectors: []] and [queries: []] the plan is
    empty, not the two built-in feeds. *)
Lemma build_feeds_empty_queries_counterexample :
  let cfg := {| cfg_regions := Some ["US"]; cfg_sectors := Some [];
                cfg_queries := Some []; cfg_keywords_include := None;
                cfg_keywords_exclude := None; cfg_max_items := None;
                cfg_days_window := None |} in
  default [] (cfg_sectors cfg) = []
  /\ default [] (cfg_queries cfg) = []
  /\ build_feeds cfg = []
  /\ build_feeds cfg <>
     [ ("General", "US", google_news_search_feed "technology" "US");
       ("General", "US", google_news_search_feed "business" "US") ].
Proof. repeat split. discriminate. Qed.

(** ** Substrings *)

Module SubstringFacts.
Import Text.

Lemma append_cons c (a b : string) : String c a ++ b = String c (a ++ b).
Proof. reflexivity. Qed.

Lemma append_nil_l (s : string) : "" ++ s = s.
Proof. reflexivity. Qed.

Lemma starts_with_spec t k :
  starts_with t k = true <-> exists post, t = k ++ post.
Proof.
  revert t. induction k as [|a k IH]; intros t; simpl.
  - split; [intros _; by exists t | done].
  - destruct t as [|b t]; simpl.
    + split; [done | intros [post Hp]; discriminate].
    + rewrite andb_true_iff, Ascii.eqb_eq, IH. split.
      * intros [-> [post ->]]. by exists post.
      * intros [post Hp]. rewrite append_cons in Hp.
        injection Hp as -> ->. split; [done | by exists post].
Qed.

Lemma contains_spec t k :
  contains t k = true <-> exists pre post, t = pre ++ k ++ post.
Proof.
  induction t as [|b t IH].
  - cbn [contains]. rewrite orb_false_r, starts_with_spec. split.
    + intros [post Hp]. by exists "", post.
    + intros [[|c pre] [post Hp]]; [by exists post | discriminate].
  - cbn [contains]. rewrite orb_true_iff, starts_with_spec, IH. split.
    + intros [[post Hp] | [pre [post Hp]]].
      * by exists "", post.
      * exists (String b pre), post. by rewrite append_cons, Hp.
    + intros [[|c pre] [post Hp]].
      * left. by exists post.
      * right. rewrite append_cons in Hp. injection Hp as -> ->.
        by exists pre, post.
Qed.

Lemma lower_append a b : lower (a ++ b) = lower a ++ lower b.
Proof.
  induction a as [|c a IH]; [done|].
  rewrite append_cons. simpl. by rewrite IH.
Qed.



End SubstringFacts.

(** ** Keyword filter *)




(** The ASCII instance of the function with the case map as a parameter. *)
Lemma matches_keywords_with_lower text includes excludes :
  matches_keywords_with Text.lower text includes excludes
  = matches_keywords text includes excludes.
Proof. reflexivity. Qed.


Example matches_keywords_admits :
  matches_keywords (Some "AI regulation update") ["ai"] ["crypto"] = true.
Proof. reflexivity. Qed.

Example matches_keywords_exclude_wins :
  matches_keywords (Some "AI and crypto markets") ["ai"] ["crypto"] = false.
Proof. reflexivity. Qed.

Example matches_keywords_no_includes :
  matches_keywords (Some "weather") [] ["crypto"] = true.
Proof. reflexivity. Qed.

(** ** Recency window *)

Example mktime_utc_epoch : mktime_utc st_epoch = 0.
Proof. reflexivity. Qed.

Example mktime_utc_2026 : mktime_utc st_2026_11_03_noon = 1793707200.
Proof. reflexivity. Qed.

Example mktime_utc_1969 : mktime_utc st_1969_12_31 = -86400.
Proof. reflexivity. Qed.

Lemma within_last_days_unknown mktime now days :
  within_last_days mktime now None days = true.
Proof. reflexivity. Qed.

Lemma within_last_days_elapsed mktime now st days :
  within_last_days mktime now (Some st) days = true <->
  now - mktime st * usec_per_sec <= days * usec_per_day.
Proof. unfold within_last_days. rewrite Z.leb_le. lia. Qed.

(** An answer of the function with exceptions is the answer of the plain
    comparison. *)
Lemma exn_within_last_days_Some mktime now pp days b :
  Exn.within_last_days mktime now pp days = Some b ->
  within_last_days mktime now pp days = b.
Proof.
  unfold Exn.within_last_days, within_last_days.
  destruct pp as [st|]; [|by intros [= <-]].
  destruct (negb (representable (mktime st * usec_per_sec))); [done|].
  destruct ((days <? - timedelta_max_days) || (timedelta_max_days <? days)); [done|].
  destruct (negb (representable (now - days * usec_per_day))); [done|].
  by intros [= <-].
Qed.

Lemma representable_spec t :
  representable t = true <-> datetime_min <= t <= datetime_max.
Proof. unfold representable. rewrite andb_true_iff, !Z.leb_le. tauto. Qed.

(** Nothing is raised when now, the publish time and the start of the
    window are in the range of [datetime]. *)
Lemma exn_within_last_days_in_range mktime now st days :
  representable now = true ->
  representable (mktime st * usec_per_sec) = true ->
  representable (now - days * usec_per_day) = true ->
  Exn.within_last_days mktime now (Some st) days
  = Some (within_last_days mktime now (Some st) days).
Proof.
  intros Hnow Hpub Hstart. unfold Exn.within_last_days, within_last_days.
  rewrite Hpub, Hstart. cbn [negb].
  apply representable_spec in Hnow, Hstart.
  unfold datetime_min, datetime_max, usec_per_day, usec_per_sec in *.
  destruct (days <? - timedelta_max_days) eqn:H1;
    [apply Z.ltb_lt in H1; unfold timedelta_max_days in H1; lia|].
  destruct (timedelta_max_days <? days) eqn:H2;
    [apply Z.ltb_lt in H2; unfold timedelta_max_days in H2; lia|].
  reflexivity.
Qed.




(** C10, as the code has it.  When [time.mktime] returns the instant of
    the publish time and now, the publish time and the start of the window
    are in the range of [datetime], an entry whose publish time lies after
    now is admitted, whatever the non-negative window. *)
Theorem within_last_days_future (mktime : struct_time -> Z)
    (now days : Z) (st : struct_time) :
  0 <= days ->
  mktime st = timegm st ->
  representable now = true ->
  representable (timegm st * usec_per_sec) = true ->
  representable (now - days * usec_per_day) = true ->
  now < timegm st * usec_per_sec ->
  Exn.within_last_days mktime now (Some st) days = Some true.
Proof.
  intros Hd Hutc Hnow Hpub Hstart Hfut. rewrite <- Hutc in *.
  rewrite (exn_within_last_days_in_range _ _ _ _ Hnow Hpub Hstart).
  f_equal. apply within_last_days_elapsed.
  unfold usec_per_day, usec_per_sec in *. lia.
Qed.

Lemma within_last_days_future_witness :
  Exn.within_last_days mktime_utc (timegm st_2026_11_03_noon * usec_per_sec)
    (Some st_2026_11_04_noon) 0 = Some true.
Proof.
  apply within_last_days_future.
  - lia.
  - reflexivity.
  - reflexivity.
  - reflexivity.
  - reflexivity.
  - reflexivity.
Defined.

(** C10 as stated fails in two ways.  In a process whose time zone is
    Asia/Tokyo an entry whose UTC publish time is one hour ahead of now is
    taken to be eight hours old and is rejected with a window of zero days.
    And with a window of 739923 days the check raises for any dated entry,
    a future one included. *)
Lemma within_last_days_future_counterexample :
  let now := timegm st_2026_11_03_noon * usec_per_sec in
  now < timegm st_2026_11_03_1300 * usec_per_sec
  /\ Exn.within_last_days mktime_tokyo now (Some st_2026_11_03_1300) 0
     = Some false
  /\ now < timegm st_2026_11_04_noon * usec_per_sec
  /\ Exn.within_last_days mktime_utc now (Some st_2026_11_04_noon) 739923
     = None.
Proof. repeat split. Qed.

(** ** uniq *)

Section UniqFacts.
Context {A K : Type} `{Countable K}.
Variable key : A -> K.
Local Open Scope list_scope.

Lemma uniq_loop_res seen res l :
  uniq_loop key seen res l = res ++ uniq_loop key seen [] l.
Proof.
  revert seen res. induction l as [|x l IH]; intros seen res; simpl.
  - by rewrite app_nil_r.
  - destruct (decide (key x ∈ seen)); [apply IH|].
    rewrite (IH _ (res ++ [x])), (IH _ [x]). by rewrite <- app_assoc.
Qed.

Lemma uniq_loop_seen x seen l :
  key x ∈ seen ->
  uniq_loop key seen [] (x :: l) = uniq_loop key seen [] l.
Proof. intros Hin. simpl. by rewrite decide_True. Qed.

Lemma uniq_loop_fresh x seen l :
  key x ∉ seen ->
  uniq_loop key seen [] (x :: l) = x :: uniq_loop key ({[key x]} ∪ seen) [] l.
Proof. intros Hin. simpl. rewrite decide_False by done. apply uniq_loop_res. Qed.

(** What the loop keeps was in the input and has a key it had not seen. *)
Lemma uniq_loop_elem seen l x :
  x ∈ uniq_loop key seen [] l -> x ∈ l /\ key x ∉ seen.
Proof.
  revert seen. induction l as [|y l IH]; intros seen.
  - simpl. by intros ?%elem_of_nil.
  - destruct (decide (key y ∈ seen)) as [Hy|Hy].
    + rewrite uniq_loop_seen by done. intros [? ?]%IH. split; [by right | done].
    + rewrite uniq_loop_fresh by done. intros [->|Hx]%elem_of_cons.
      * split; [by left | done].
      * apply IH in Hx as [? ?]. split; [by right | set_solver].
Qed.

Lemma uniq_loop_NoDup seen l : NoDup (key <$> uniq_loop key seen [] l).
Proof.
  revert seen. induction l as [|y l IH]; intros seen.
  - simpl. constructor.
  - destruct (decide (key y ∈ seen)) as [Hy|Hy].
    + rewrite uniq_loop_seen by done. apply IH.
    + rewrite uniq_loop_fresh by done. rewrite fmap_cons. constructor; [|apply IH].
      intros (z & Hkz & Hz)%list_elem_of_fmap.
      apply uniq_loop_elem in Hz as [_ Hz]. set_solver.
Qed.

Lemma uniq_loop_sublist seen l : uniq_loop key seen [] l `sublist_of` l.
Proof.
  revert seen. induction l as [|y l IH]; intros seen.
  - simpl. constructor.
  - destruct (decide (key y ∈ seen)) as [Hy|Hy].
    + rewrite uniq_loop_seen by done. apply sublist_cons, IH.
    + rewrite uniq_loop_fresh by done. apply sublist_skip, IH.
Qed.

(** For a key not seen yet, the loop keeps the first record that has it. *)
Lemma uniq_loop_find seen l k :
  k ∉ seen ->
  snd <$> list_find (fun x => key x = k) (uniq_loop key seen [] l)
  = snd <$> list_find (fun x => key x = k) l.
Proof.
  revert seen. induction l as [|y l IH]; intros seen Hk; [done|].
  destruct (decide (key y ∈ seen)) as [Hy|Hy].
  - rewrite uniq_loop_seen by done. rewrite (IH _ Hk).
    cbn [list_find]. rewrite decide_False by (intros <-; done).
    by rewrite <- option_fmap_compose.
  - rewrite uniq_loop_fresh by done. cbn [list_find].
    destruct (decide (key y = k)) as [Hyk|Hyk]; [done|].
    rewrite <- !option_fmap_compose. apply IH. set_solver.
Qed.

Lemma uniq_loop_app seen res l1 l2 :
  uniq_loop key seen res (l1 ++ l2)
  = uniq_loop key (list_to_set (key <$> l1) ∪ seen)
      (uniq_loop key seen res l1) l2.
Proof.
  revert seen res. induction l1 as [|x l1 IH]; intros seen res.
  - simpl. by rewrite (left_id_L ∅ (∪)).
  - cbn [app uniq_loop fmap list_fmap list_to_set].
    destruct (decide (key x ∈ seen)) as [Hx|Hx]; rewrite IH; f_equal; set_solver.
Qed.

Lemma uniq_NoDup l : NoDup (key <$> uniq key l).
Proof. apply uniq_loop_NoDup. Qed.

Lemma uniq_sublist l : uniq key l `sublist_of` l.
Proof. apply uniq_loop_sublist. Qed.

Lemma uniq_find l k :
  snd <$> list_find (fun x => key x = k) (uniq key l)
  = snd <$> list_find (fun x => key x = k) l.
Proof. apply uniq_loop_find. set_solver. Qed.

(** One more turn of the loop: the next record is appended exactly when
    no earlier record has its key. *)
Lemma uniq_snoc l x :
  uniq key (l ++ [x])
  = uniq key l ++ (if decide (key x ∈ key <$> l) then [] else [x]).
Proof.
  unfold uniq. rewrite uniq_loop_app. simpl.
  destruct (decide (key x ∈ list_to_set (key <$> l) ∪ ∅)) as [Hx|Hx].
  - rewrite decide_True by set_solver. by rewrite app_nil_r.
  - rewrite decide_False by set_solver. done.
Qed.

End UniqFacts.

(** C6. The deduplication key of a record is its link when that is not
    empty and its title otherwise.  The deduplicated list has no two records
    with the same key, keeps the records in encounter order, holds for each
    key the first record of the input that has it, and a record is dropped
    exactly when an earlier record has its key. *)
Theorem uniq_dedup_key_first_wins (items : list item) :
  let out := uniq dedup_key items in
  (forall x, dedup_key x = if Text.nonempty (link x) then link x else title x)
  /\ NoDup (dedup_key <$> out)
  /\ out `sublist_of` items
  /\ (forall k,
        snd <$> list_find (fun x => dedup_key x = k) out
        = snd <$> list_find (fun x => dedup_key x = k) items)
  /\ (forall x,
        uniq dedup_key (items ++ [x])
        = (out ++ if decide (dedup_key x ∈ dedup_key <$> items) then [] else [x])%list).
Proof.
  cbv zeta. split; [done|]. split; [apply uniq_NoDup|].
  split; [apply uniq_sublist|]. split; [apply uniq_find | apply uniq_snoc].
Qed.

Example uniq_same_link :
  uniq dedup_key
    [ news "First title" "https://example.org/a" None;
      news "Other title" "https://example.org/a" None;
      news "Untitled" "" None;
      news "Untitled" "" (Some st_epoch) ]
  = [ news "First title" "https://example.org/a" None;
      news "Untitled" "" None ].
Proof. vm_compute. reflexivity. Qed.

(** ** Positions in lists *)

Section Positions.
Context {A : Type}.
Local Open Scope list_scope.

Lemma lookup_two_split (l : list A) i j a b :
  (i < j)%nat -> l !! i = Some a -> l !! j = Some b ->
  exists l1 l2 l3, l = l1 ++ a :: l2 ++ b :: l3.
Proof.
  intros Hij Hi Hj.
  destruct (list_elem_of_split_length _ _ _ Hi) as (l1 & r & -> & ->).
  rewrite lookup_app_r in Hj by lia.
  destruct (j - length l1)%nat as [|n] eqn:Hn; [lia|]. simpl in Hj.
  destruct (list_elem_of_split_length _ _ _ Hj) as (l2 & l3 & -> & _).
  by exists l1, l2, l3.
Qed.

Lemma split_occurs_before (l1 l2 l3 : list A) a b :
  occurs_before (l1 ++ a :: l2 ++ b :: l3) a b.
Proof.
  exists (length l1), (length l1 + S (length l2))%nat. split; [lia|]. split.
  - by apply list_lookup_middle.
  - rewrite lookup_app_r by lia.
    replace (length l1 + S (length l2) - length l1)%nat with (S (length l2)) by lia.
    simpl. by apply list_lookup_middle.
Qed.

Lemma sublist_pair_occurs_before (l : list A) a b :
  [a; b] `sublist_of` l -> occurs_before l a b.
Proof.
  intros (l1 & r & -> & Hb)%sublist_cons_l.
  apply sublist_cons_l in Hb as (l2 & l3 & -> & _).
  apply split_occurs_before.
Qed.

Lemma occurs_before_sublist (l k : list A) a b :
  l `sublist_of` k -> occurs_before l a b -> occurs_before k a b.
Proof.
  intros Hsub (i & j & Hij & Hi & Hj).
  destruct (lookup_two_split _ _ _ _ _ Hij Hi Hj) as (l1 & l2 & l3 & ->).
  apply sublist_pair_occurs_before. etrans; [|exact Hsub].
  apply sublist_inserts_l. apply sublist_skip.
  apply sublist_inserts_l. apply sublist_skip. apply sublist_nil_l.
Qed.

Lemma StronglySorted_lookup (R : relation A) (l : list A) i j a b :
  StronglySorted R l -> (i < j)%nat ->
  l !! i = Some a -> l !! j = Some b -> R a b.
Proof.
  intros Hs Hij Hi Hj.
  destruct (lookup_two_split _ _ _ _ _ Hij Hi Hj) as (l1 & l2 & l3 & ->).
  apply StronglySorted_app_1_r, StronglySorted_cons in Hs as [Hall _].
  rewrite Forall_forall in Hall. apply Hall. set_solver.
Qed.

End Positions.

(** ** The descending stable sort *)

Section SortFacts.
Context {A : Type}.
Variable key : A -> Z.
Local Open Scope list_scope.

Lemma insert_desc_perm x l : insert_desc key x l ≡ₚ x :: l.
Proof.
  induction l as [|y l IH]; simpl; [done|].
  destruct (key y <=? key x); [done|].
  rewrite IH. apply Permutation_swap.
Qed.

Lemma sort_desc_perm l : sort_desc key l ≡ₚ l.
Proof.
  induction l as [|x l IH]; simpl; [done|].
  rewrite insert_desc_perm. by rewrite IH.
Qed.

Lemma insert_desc_sorted x l :
  StronglySorted (key_ge key) l -> StronglySorted (key_ge key) (insert_desc key x l).
Proof.
  induction 1 as [|y l Hs IH Hall]; simpl.
  - repeat constructor.
  - destruct (key y <=? key x) eqn:Hle.
    + apply Z.leb_le in Hle. constructor; [by constructor|].
      constructor; [done|]. eapply Forall_impl; [exact Hall|].
      unfold key_ge. intros z Hz. lia.
    + apply Z.leb_gt in Hle. constructor; [done|].
      rewrite insert_desc_perm. constructor; [|done]. unfold key_ge. lia.
Qed.

Lemma sort_desc_sorted l : StronglySorted (key_ge key) (sort_desc key l).
Proof.
  induction l as [|x l IH]; simpl; [constructor | by apply insert_desc_sorted].
Qed.

(** Stability: the records that share a key keep their relative order. *)
Lemma insert_desc_filter t x l :
  filter (fun y => key y = t) (insert_desc key x l)
  = filter (fun y => key y = t) (x :: l).
Proof.
  induction l as [|y l IH]; simpl; [done|].
  destruct (key y <=? key x) eqn:Hle; [done|]. apply Z.leb_gt in Hle.
  rewrite (filter_cons _ y), IH, !filter_cons.
  destruct (decide (key y = t)), (decide (key x = t)); try done. lia.
Qed.

Lemma sort_desc_filter t l :
  filter (fun y => key y = t) (sort_desc key l) = filter (fun y => key y = t) l.
Proof.
  induction l as [|x l IH]; simpl; [done|].
  by rewrite insert_desc_filter, !filter_cons, IH.
Qed.

(** A list in descending key order is determined by its groups of equal
    key: there is one stable descending arrangement of a list, so any
    stable sort computes [sort_desc]. *)
Lemma stable_desc_unique l1 l2 :
  StronglySorted (key_ge key) l1 -> StronglySorted (key_ge key) l2 ->
  (forall t, filter (fun y => key y = t) l1 = filter (fun y => key y = t) l2) ->
  l1 = l2.
Proof.
  intros Hs1. revert l2.
  induction Hs1 as [|x l1 Hs1 IH Hall1]; intros l2 Hs2 Hgroups.
  - destruct l2 as [|y l2]; [done|].
    specialize (Hgroups (key y)). by rewrite filter_cons_True in Hgroups.
  - destruct Hs2 as [|y l2 Hs2 Hall2].
    { specialize (Hgroups (key x)). by rewrite filter_cons_True in Hgroups. }
    assert (Hxy : key x <= key y).
    { pose proof (Hgroups (key x)) as Hg. rewrite filter_cons_True in Hg by done.
      assert (Hin : x ∈ y :: l2).
      { eapply list_elem_of_filter. rewrite <- Hg. by left. }
      apply elem_of_cons in Hin as [->|Hin]; [done|].
      rewrite Forall_forall in Hall2. by apply Hall2. }
    assert (Hyx : key y <= key x).
    { pose proof (Hgroups (key y)) as Hg.
      rewrite (filter_cons_True _ y) in Hg by done.
      assert (Hin : y ∈ x :: l1).
      { eapply list_elem_of_filter. rewrite Hg. by left. }
      apply elem_of_cons in Hin as [->|Hin]; [done|].
      rewrite Forall_forall in Hall1. by apply Hall1. }
    assert (Heq : x = y).
    { pose proof (Hgroups (key x)) as Hg.
      rewrite !filter_cons_True in Hg by lia. by injection Hg. }
    subst y. f_equal. apply IH; [done|]. intros t.
    specialize (Hgroups t). rewrite !filter_cons in Hgroups.
    destruct (decide (key x = t)); [by injection Hgroups | done].
Qed.

Lemma sort_desc_unique l out :
  StronglySorted (key_ge key) out ->
  (forall t, filter (fun y => key y = t) out = filter (fun y => key y = t) l) ->
  out = sort_desc key l.
Proof.
  intros Hs Hgroups. apply stable_desc_unique; [done | apply sort_desc_sorted|].
  intros t. by rewrite sort_desc_filter.
Qed.

Lemma sort_desc_length l : length (sort_desc key l) = length l.
Proof. apply Permutation_length, sort_desc_perm. Qed.

(** Two records of the sorted list, the first one earlier: its key is
    larger, or the keys are equal and it came earlier in the input. *)
Lemma sort_desc_order l i j a b :
  (i < j)%nat ->
  sort_desc key l !! i = Some a -> sort_desc key l !! j = Some b ->
  key b < key a \/ (key a = key b /\ occurs_before l a b).
Proof.
  intros Hij Hi Hj.
  pose proof (StronglySorted_lookup _ _ _ _ _ _
                (sort_desc_sorted l) Hij Hi Hj) as Hge.
  unfold key_ge in Hge.
  destruct (decide (key a = key b)) as [Heq|Hne]; [right | left; lia].
  split; [done|].
  destruct (lookup_two_split _ _ _ _ _ Hij Hi Hj) as (l1 & l2 & l3 & Hl).
  apply sublist_pair_occurs_before.
  etrans; [|apply (sublist_filter (fun y => key y = key a) l)].
  rewrite <- sort_desc_filter, Hl.
  rewrite filter_app, filter_cons_True by done.
  rewrite filter_app, (filter_cons_True _ b) by done.
  apply sublist_inserts_l, sublist_skip, sublist_inserts_l, sublist_skip,
    sublist_nil_l.
Qed.

End SortFacts.

(** ** The cap *)

Lemma slice_to_nonneg {A : Type} (m : Z) (l : list A) :
  0 <= m -> slice_to m l = take (Z.to_nat m) l.
Proof.
  intros Hm. unfold slice_to.
  destruct (m <? 0) eqn:Hneg; [apply Z.ltb_lt in Hneg; lia|].
  destruct (Z.min_spec m (Z.of_nat (length l))) as [[Hlt ->] | [Hge ->]]; [done|].
  rewrite Nat2Z.id. rewrite !take_ge; [done | lia | lia].
Qed.

Lemma slice_to_neg {A : Type} (m : Z) (l : list A) :
  m < 0 -> slice_to m l = take (length l - Z.to_nat (- m)) l.
Proof.
  intros Hm. unfold slice_to.
  destruct (m <? 0) eqn:Hneg; [|apply Z.ltb_ge in Hneg; lia].
  f_equal. lia.
Qed.

(** Whatever the bound, the slice is an initial segment. *)
Lemma slice_to_take {A : Type} (m : Z) (l : list A) :
  exists n, slice_to m l = take n l.
Proof. unfold slice_to. eauto. Qed.

(** C2, as the code has it.  For a bound [max_items >= 0] the cap returns
    the first [max_items] records of the sorted list (all of them when there
    are fewer), and none for [max_items = 0].  A negative bound is the
    Python slice [items[:max_items]]: it drops the last [- max_items]
    records instead.  No case raises. *)
Theorem aggregate_cap (mktime : struct_time -> Z) (items : list item)
    (max_items : Z) :
  let sorted := sort_desc (sort_key mktime) (uniq dedup_key items) in
  (0 <= max_items ->
   aggregate mktime items max_items = take (Z.to_nat max_items) sorted)
  /\ (max_items = 0 -> aggregate mktime items max_items = [])
  /\ (max_items < 0 ->
      aggregate mktime items max_items
      = take (length sorted - Z.to_nat (- max_items)) sorted).
Proof.
  cbv zeta. unfold aggregate. split; [apply slice_to_nonneg|].
  split; [|apply slice_to_neg].
  intros ->. by rewrite slice_to_nonneg.
Qed.

Lemma aggregate_cap_witness :
  aggregate mktime_utc [news_eve; news_undated; news_noon] 2
  = [news_noon; news_eve]
  /\ aggregate mktime_utc [news_eve; news_undated; news_noon] 0 = []
  /\ aggregate mktime_utc [news_eve; news_undated; news_noon] (-2)
     = [news_noon].
Proof.
  pose proof (aggregate_cap mktime_utc [news_eve; news_undated; news_noon])
    as Hcap.
  split; [|split].
  - rewrite (proj1 (Hcap 2)) by lia. vm_compute. reflexivity.
  - apply (proj1 (proj2 (Hcap 0))). reflexivity.
  - rewrite (proj2 (proj2 (Hcap (-2)))) by lia. vm_compute. reflexivity.
Defined.

(** C2 as stated fails for a negative bound: [items[:-1]] keeps all the
    records but the last, in the cap step alone and in a whole run with
    [max_items: -1]. *)
Lemma aggregate_cap_negative_counterexample :
  let out := aggregate mktime_utc [news_eve; news_noon] (-1) in
  out = [news_noon] /\ out <> []
  /\ digest_items mktime_utc parse_recent clock_2026
       (one_feed_config (Some (-1)) None)
     = [news_noon; news_eve].
Proof.
  split; [vm_compute; reflexivity|]. split; [discriminate|].
  vm_compute. reflexivity.
Qed.

(** ** The sort key *)

Lemma sort_key_eq mktime x :
  sort_key mktime x
  = match published_parsed x with Some pp => mktime pp | None => 0 end.
Proof. reflexivity. Qed.

(** C3, as the code has it.  The sort key is the publish time in epoch
    seconds when there is one and [0], the epoch itself, otherwise; in the
    sorted list a record without publish time stands after every record
    published after the epoch. *)
Theorem sort_key_undated_last (mktime : struct_time -> Z) (items : list item) :
  (forall x,
     sort_key mktime x
     = match published_parsed x with Some pp => mktime pp | None => 0 end)
  /\ (forall i j a b st,
        sort_desc (sort_key mktime) items !! i = Some a ->
        sort_desc (sort_key mktime) items !! j = Some b ->
        published_parsed a = Some st -> 0 < mktime st ->
        published_parsed b = None ->
        (i < j)%nat).
Proof.
  split; [done|]. intros i j a b st Hi Hj Ha Hpos Hb.
  assert (Hka : sort_key mktime a = mktime st) by (by rewrite sort_key_eq, Ha).
  assert (Hkb : sort_key mktime b = 0) by (by rewrite sort_key_eq, Hb).
  destruct (lt_eq_lt_dec i j) as [[Hlt | ->] | Hgt]; [done | |].
  - rewrite Hi in Hj. injection Hj as ->. lia.
  - pose proof (StronglySorted_lookup _ _ _ _ _ _
                  (sort_desc_sorted (sort_key mktime) items) Hgt Hj Hi) as Hge.
    unfold key_ge in Hge. lia.
Qed.

Lemma sort_key_undated_last_witness :
  sort_desc (sort_key mktime_utc) [news_undated; news_eve] !! 0%nat
  = Some news_eve
  /\ sort_desc (sort_key mktime_utc) [news_undated; news_eve] !! 1%nat
     = Some news_undated
  /\ (0 < 1)%nat.
Proof.
  split; [reflexivity|]. split; [reflexivity|].
  apply (proj2 (sort_key_undated_last mktime_utc [news_undated; news_eve])
           0%nat 1%nat news_eve news_undated st_2026_11_02_noon);
    reflexivity.
Defined.

(** C3 as stated fails: [0] is not the oldest key.  A record published
    before the epoch sorts after an undated one, and a record published at
    the epoch ties with it and keeps its place.  The first case also arises
    in a whole run, when the window is wide enough to admit the old entry. *)
Lemma sort_key_sentinel_counterexample :
  sort_desc (sort_key mktime_utc) [news_1969; news_undated]
  = [news_undated; news_1969]
  /\ sort_desc (sort_key mktime_utc) [news_undated; news_epoch]
     = [news_undated; news_epoch]
  /\ published_parsed news_undated = None
  /\ published_parsed news_1969 = Some st_1969_12_31
  /\ published_parsed news_epoch = Some st_epoch
  /\ digest_items mktime_utc parse_old clock_2026
       (one_feed_config None (Some 30000))
     = [news_undated; news_1969].
Proof. repeat split. Qed.

(** ** The output of a run *)

Section AggregateFacts.
Variable mktime : struct_time -> Z.

Lemma aggregate_take items max_items :
  exists n,
    aggregate mktime items max_items
    = take n (sort_desc (sort_key mktime) (uniq dedup_key items)).
Proof. apply slice_to_take. Qed.

Lemma aggregate_NoDup items max_items :
  NoDup (dedup_key <$> aggregate mktime items max_items).
Proof.
  destruct (aggregate_take items max_items) as [n ->].
  rewrite fmap_take. eapply sublist_NoDup; [|apply sublist_take].
  rewrite sort_desc_perm. apply uniq_NoDup.
Qed.

Lemma aggregate_order items max_items i j a b :
  (i < j)%nat ->
  aggregate mktime items max_items !! i = Some a ->
  aggregate mktime items max_items !! j = Some b ->
  sort_key mktime b < sort_key mktime a
  \/ (sort_key mktime a = sort_key mktime b
      /\ occurs_before (uniq dedup_key items) a b).
Proof.
  destruct (aggregate_take items max_items) as [n ->].
  intros Hij [Hi _]%lookup_take_Some [Hj _]%lookup_take_Some.
  by apply (sort_desc_order (sort_key mktime) _ i j).
Qed.

Lemma aggregate_length items max_items :
  0 <= max_items ->
  Z.of_nat (length (aggregate mktime items max_items)) <= max_items.
Proof.
  intros Hm. unfold aggregate. rewrite slice_to_nonneg by done.
  rewrite length_take. lia.
Qed.

End AggregateFacts.

(** C7, as the code has it.  The records handed on have pairwise different
    deduplication keys and stand in descending order of sort key with equal
    keys in the order of the deduplicated encounter list, whatever the
    configured maximum; when the maximum is not negative they are at most
    [max_items] many. *)
Theorem aggregate_invariants (mktime : struct_time -> Z) (items : list item)
    (max_items : Z) :
  let out := aggregate mktime items max_items in
  NoDup (dedup_key <$> out)
  /\ (forall i j a b,
        (i < j)%nat -> out !! i = Some a -> out !! j = Some b ->
        sort_key mktime b < sort_key mktime a
        \/ (sort_key mktime a = sort_key mktime b
            /\ occurs_before (uniq dedup_key items) a b))
  /\ (0 <= max_items -> Z.of_nat (length out) <= max_items).
Proof.
  cbv zeta. split; [apply aggregate_NoDup|]. split.
  - intros i j a b. apply aggregate_order.
  - apply aggregate_length.
Qed.

Lemma aggregate_invariants_witness :
  let out :=
    aggregate mktime_utc
      [news_undated; news_eve; news_epoch; news_noon; news_eve] 3 in
  out = [news_noon; news_eve; news_undated]
  /\ NoDup (dedup_key <$> out)
  /\ Z.of_nat (length out) <= 3.
Proof.
  cbv zeta. split; [vm_compute; reflexivity|].
  destruct (aggregate_invariants mktime_utc
    [news_undated; news_eve; news_epoch; news_noon; news_eve] 3)
    as (Hnd & _ & Hlen).
  split; [exact Hnd | apply Hlen; lia].
Defined.

(** C7 as stated fails for a negative maximum: the slice [items[:-2]]
    still returns a record, more than the maximum allows. *)
Lemma aggregate_negative_maximum_counterexample :
  let out :=
    digest_items mktime_utc parse_recent clock_2026
      (one_feed_config (Some (-2)) None) in
  out = aggregate mktime_utc [news_noon; news_eve; news_undated] (-2)
  /\ out = [news_noon]
  /\ ~ (Z.of_nat (length out) <= -2).
Proof.
  split; [vm_compute; reflexivity|]. split; [vm_compute; reflexivity|].
  vm_compute. intros Hle. by apply Hle.
Qed.

(** The same invariants for the records a whole run hands to the template. *)
Corollary digest_items_invariants (mktime : struct_time -> Z)
    (parse : string -> list entry) (clock : nat -> Z) (cfg : config) :
  let max_items := default 40 (cfg_max_items cfg) in
  let encountered :=
    collect mktime parse clock 0
      (default 1 (cfg_days_window cfg))
      (default [] (cfg_keywords_include cfg))
      (default [] (cfg_keywords_exclude cfg)) (build_feeds cfg) in
  let out := digest_items mktime parse clock cfg in
  0 <= max_items ->
  NoDup (dedup_key <$> out)
  /\ (forall i j a b,
        (i < j)%nat -> out !! i = Some a -> out !! j = Some b ->
        sort_key mktime b < sort_key mktime a
        \/ (sort_key mktime a = sort_key mktime b
            /\ occurs_before (uniq dedup_key encountered) a b))
  /\ Z.of_nat (length out) <= max_items.
Proof.
  cbv zeta. intros Hm. unfold digest_items.
  split; [apply aggregate_NoDup|]. split.
  - intros i j a b. apply aggregate_order.
  - by apply aggregate_length.
Qed.

(** * Further properties of the code *)

(** ** Feed URLs *)

Module UrlFacts.
Import Text Url.

Lemma all_chars_append p (a b : string) :
  all_chars p (a ++ b) = all_chars p a && all_chars p b.
Proof.
  induction a as [|c a IH]; [done|].
  rewrite SubstringFacts.append_cons. simpl. by rewrite IH, andb_assoc.
Qed.

Lemma count_char_append c (a b : string) :
  count_char c (a ++ b) = (count_char c a + count_char c b)%nat.
Proof.
  induction a as [|d a IH]; [done|].
  rewrite SubstringFacts.append_cons. simpl. rewrite IH. lia.
Qed.

Lemma count_char_absent p c s :
  all_chars p s = true -> p c = false -> count_char c s = 0%nat.
Proof.
  intros Hall Hc. induction s as [|d s IH]; [done|].
  simpl in *. apply andb_true_iff in Hall as [Hd Hs].
  destruct (Ascii.eqb_spec c d) as [->|_]; [congruence|]. by rewrite IH.
Qed.

Lemma quote_byte_chars c : all_chars quoted_char (quote_byte c) = true.
Proof. destruct c as [[] [] [] [] [] [] [] []]; reflexivity. Qed.

Lemma quote_plus_chars s : all_chars quoted_char (quote_plus s) = true.
Proof.
  induction s as [|c s IH]; [done|]. simpl.
  by rewrite all_chars_append, quote_byte_chars, IH.
Qed.

Lemma unquote_quote_byte c r :
  unquote_plus (quote_byte c ++ r) = String c (unquote_plus r).
Proof. destruct c as [[] [] [] [] [] [] [] []]; reflexivity. Qed.

(** Decoding undoes the encoding. *)
Lemma unquote_quote_plus s : unquote_plus (quote_plus s) = s.
Proof.
  induction s as [|c s IH]; [done|]. simpl.
  by rewrite unquote_quote_byte, IH.
Qed.

Lemma quote_plus_inj s1 s2 : quote_plus s1 = quote_plus s2 -> s1 = s2.
Proof.
  intros Heq. rewrite <- (unquote_quote_plus s1), <- (unquote_quote_plus s2).
  by rewrite Heq.
Qed.

Lemma length_append (a b : string) :
  String.length (a ++ b) = (String.length a + String.length b)%nat.
Proof.
  induction a as [|c a IH]; [done|].
  rewrite SubstringFacts.append_cons. simpl. by rewrite IH.
Qed.

Lemma append_inj_length (a b s t : string) :
  String.length a = String.length b -> a ++ s = b ++ t -> a = b /\ s = t.
Proof.
  revert b. induction a as [|c a IH]; intros [|d b] Hlen Heq; try discriminate.
  - done.
  - rewrite !SubstringFacts.append_cons in Heq. injection Heq as -> Heq.
    injection Hlen as Hlen. destruct (IH _ Hlen Heq) as [-> ->]. done.
Qed.

Lemma append_inv_r (a b s : string) : a ++ s = b ++ s -> a = b.
Proof.
  intros Heq. apply (append_inj_length a b s s); [|done].
  apply (f_equal String.length) in Heq. rewrite !length_append in Heq. lia.
Qed.

End UrlFacts.

(** The parameters come from the table or are the default triple. *)
Lemma iso_region_to_params_range region_code :
  iso_region_to_params region_code ∈
    [ ("en-US", "US", "US:en"); ("en-GB", "GB", "GB:en");
      ("en-CA", "CA", "CA:en"); ("en-AU", "AU", "AU:en");
      ("en-IN", "IN", "IN:en"); ("fr", "FR", "FR:fr"); ("de", "DE", "DE:de");
      ("es", "ES", "ES:es"); ("it", "IT", "IT:it"); ("pt-BR", "BR", "BR:pt") ].
Proof.
  unfold iso_region_to_params.
  destruct (mapping !! Text.upper region_code) as [p|] eqn:Hm; [|by left].
  unfold mapping in Hm. apply elem_of_list_to_map_2 in Hm.
  apply (list_elem_of_fmap_2 snd) in Hm. exact Hm.
Qed.

(** X1. Whatever the query and the region code, the feed URL has exactly
    one [?], three [&], four [=] and no space or [#]: the text of the query
    cannot add or cut a parameter of the URL. *)
Theorem google_news_search_feed_shape (query region_code : string) :
  let url := google_news_search_feed query region_code in
  count_char "?" url = 1%nat
  /\ count_char "&" url = 3%nat
  /\ count_char "=" url = 4%nat
  /\ count_char " " url = 0%nat
  /\ count_char "#" url = 0%nat.
Proof.
  cbv zeta. unfold google_news_search_feed.
  pose proof (UrlFacts.quote_plus_chars query) as Hq.
  pose proof (iso_region_to_params_range region_code) as Hp.
  destruct (iso_region_to_params region_code) as [[hl gl] ceid].
  rewrite !UrlFacts.count_char_append.
  rewrite !(UrlFacts.count_char_absent _ _ _ Hq) by reflexivity.
  repeat (apply elem_of_cons in Hp as [Hp|Hp];
          [injection Hp as -> -> ->; repeat split; reflexivity|]).
  by apply elem_of_nil in Hp.
Qed.

(** X2. For one region, two feed URLs are equal only when the queries
    are: the query can be read back from the URL. *)
Theorem google_news_search_feed_inj (q1 q2 region_code : string) :
  google_news_search_feed q1 region_code = google_news_search_feed q2 region_code
  <-> q1 = q2.
Proof.
  split; [|by intros ->]. unfold google_news_search_feed.
  destruct (iso_region_to_params region_code) as [[hl gl] ceid].
  intros Heq. apply String.app_inj in Heq.
  apply UrlFacts.append_inv_r in Heq. by apply UrlFacts.quote_plus_inj.
Qed.

Lemma iso_region_to_params_unknown region_code :
  Text.is_ascii region_code = true ->
  in_table region_code = false ->
  iso_region_to_params region_code = default_params.
Proof.
  intros Hascii Hout. unfold iso_region_to_params.
  destruct (mapping !! Text.upper region_code) as [p|] eqn:Hm; [|reflexivity].
  rewrite (in_table_upper _ Hascii) in Hout; [discriminate|]. by rewrite Hm.
Qed.

Lemma iso_region_to_params_same_ci code code' :
  Text.same_ci code code' = true ->
  iso_region_to_params code' = iso_region_to_params code.
Proof.
  intros Hci. unfold iso_region_to_params.
  apply TextFacts.same_ci_upper in Hci. by rewrite Hci.
Qed.

(** X3. The region code matters only up to case, and an ASCII code that
    is not in the table gives the feed of the United States. *)
Theorem google_news_search_feed_region (query region_code : string) :
  (forall code', Text.same_ci region_code code' = true ->
     google_news_search_feed query code'
     = google_news_search_feed query region_code)
  /\ (Text.is_ascii region_code = true -> in_table region_code = false ->
      google_news_search_feed query region_code
      = google_news_search_feed query "US").
Proof.
  unfold google_news_search_feed. split.
  - intros code' Hci. by rewrite (iso_region_to_params_same_ci _ _ Hci).
  - intros Hascii Hout.
    by rewrite (iso_region_to_params_unknown _ Hascii Hout).
Qed.

Lemma google_news_search_feed_region_witness :
  google_news_search_feed "ai" "Gb" = google_news_search_feed "ai" "gB"
  /\ google_news_search_feed "ai" "zz" = google_news_search_feed "ai" "US".
Proof.
  split.
  - apply (proj1 (google_news_search_feed_region "ai" "gB")). reflexivity.
  - apply (proj2 (google_news_search_feed_region "ai" "zz"));
      vm_compute; reflexivity.
Defined.

(** ** More on the feed plan *)

Lemma feeds_for_length label regions queries :
  length (feeds_for label regions queries)
  = (length regions * length queries)%nat.
Proof.
  unfold feeds_for, feed. induction regions as [|r regions IH]; [done|].
  cbn [flat_map]. rewrite length_app, length_map, IH. simpl. lia.
Qed.

Lemma feeds_for_elem label regions queries (f : feed) :
  f ∈ feeds_for label regions queries <->
  exists r q, f = (label, r, google_news_search_feed q r)
              /\ r ∈ regions /\ q ∈ queries.
Proof.
  unfold feeds_for. rewrite list_elem_of_In, in_flat_map. split.
  - intros (r & Hr & Hf). apply in_map_iff in Hf as (q & <- & Hq).
    exists r, q. by rewrite !list_elem_of_In.
  - intros (r & q & -> & Hr & Hq). exists r. rewrite <- list_elem_of_In.
    split; [done|]. apply in_map_iff. exists q. by rewrite <- list_elem_of_In.
Qed.

(** X4. The plan has one feed per region and query: with no sectors,
    regions times general queries; with sectors, regions times the total
    number of sector queries.  In particular an empty region list gives an
    empty plan. *)
Theorem build_feeds_length (cfg : config) :
  let regions := default ["US"] (cfg_regions cfg) in
  let sectors := default [] (cfg_sectors cfg) in
  length (build_feeds cfg)
  = (length regions *
     match sectors with
     | [] => length (default ["technology"; "business"] (cfg_queries cfg))
     | _ :: _ =>
         sum_list (List.map
           (fun s => length (default [] (sector_queries_key s))) sectors)
     end)%nat.
Proof.
  cbv zeta. unfold build_feeds.
  destruct (default [] (cfg_sectors cfg)) as [|s0 rest]; [apply feeds_for_length|].
  generalize (s0 :: rest). intros sectors.
  induction sectors as [|s sectors IH]; [simpl; lia|].
  cbn [flat_map List.map sum_list sum_list_with].
  rewrite length_app, IH, feeds_for_length. simpl. lia.
Qed.

(** X5. The feeds of the plan are exactly these: with no sectors, the
    "General" feed of each region and general query; with sectors, for each
    sector the feed of each region and each of its queries, under the name
    of the sector ("Sector" when it has none).  The general queries play no
    part once a sector is configured. *)
Theorem build_feeds_elem (cfg : config) (f : feed) :
  let regions := default ["US"] (cfg_regions cfg) in
  let sectors := default [] (cfg_sectors cfg) in
  f ∈ build_feeds cfg <->
  exists r q label,
    f = (label, r, google_news_search_feed q r) /\ r ∈ regions
    /\ ((sectors = [] /\ label = "General"
         /\ q ∈ default ["technology"; "business"] (cfg_queries cfg))
        \/ (exists s, s ∈ sectors
                      /\ label = default "Sector" (sector_name_key s)
                      /\ q ∈ default [] (sector_queries_key s))).
Proof.
  cbv zeta. unfold build_feeds.
  destruct (default [] (cfg_sectors cfg)) as [|s0 rest].
  - rewrite feeds_for_elem. split.
    + intros (r & q & -> & Hr & Hq). exists r, q, "General". eauto 10.
    + intros (r & q & label & -> & Hr & [(_ & -> & Hq) | (s & Hs & _)]).
      * by exists r, q.
      * by apply elem_of_nil in Hs.
  - rewrite list_elem_of_In, in_flat_map. split.
    + intros (s & Hs & Hf). apply list_elem_of_In in Hs, Hf.
      apply feeds_for_elem in Hf as (r & q & -> & Hr & Hq).
      exists r, q, (default "Sector" (sector_name_key s)).
      split; [done|]. split; [done|]. right. by exists s.
    + intros (r & q & label & -> & Hr & [(Hnil & _) | (s & Hs & -> & Hq)]);
        [discriminate|].
      exists s. split; [by apply list_elem_of_In|].
      apply list_elem_of_In, feeds_for_elem. by exists r, q.
Qed.

(** ** More on the keyword filter *)

Lemma contains_empty t : Text.contains t "" = true.
Proof. by destruct t. Qed.

Lemma any_in_empty_keyword t ks : In "" ks -> any_in t ks = true.
Proof.
  intros Hin. unfold any_in. apply existsb_exists. exists "".
  split; [done|]. apply contains_empty.
Qed.

(** X6. The empty keyword occurs in every text: an exclude list that
    holds it rejects every text, and an include list that holds it asks for
    nothing. *)
Theorem matches_keywords_empty_keyword (text : option string)
    (includes excludes : list string) :
  (In "" excludes -> matches_keywords text includes excludes = false)
  /\ (In "" includes ->
      matches_keywords text includes excludes
      = matches_keywords text [] excludes).
Proof.
  unfold matches_keywords. split.
  - intros Hin. rewrite (any_in_empty_keyword _ _ Hin).
    destruct excludes as [|e excludes]; [done|].
    destruct includes as [|i includes]; [done|].
    by destruct (any_in _ (i :: includes)).
  - intros Hin. rewrite (any_in_empty_keyword _ _ Hin).
    by destruct includes.
Qed.

Lemma matches_keywords_empty_keyword_witness :
  matches_keywords (Some "Budget vote tonight") ["budget"] ["sport"; ""] = false
  /\ matches_keywords (Some "Budget vote tonight") ["zzz"; ""] ["sport"]
     = matches_keywords (Some "Budget vote tonight") [] ["sport"].
Proof.
  split.
  - apply (proj1 (matches_keywords_empty_keyword _ _ _)). simpl. tauto.
  - apply (proj2 (matches_keywords_empty_keyword _ _ _)). simpl. tauto.
Defined.

Lemma any_in_same_ci t ks ks' :
  Forall2 (fun k k' => Text.same_ci k k' = true) ks ks' ->
  any_in t ks = any_in t ks'.
Proof.
  unfold any_in. induction 1 as [|k k' ks ks' Hk _ IH]; [done|].
  simpl. apply TextFacts.same_ci_lower in Hk. by rewrite Hk, IH.
Qed.

(** X7. On ASCII text the filter is blind to the case of letters: texts
    that are equal up to case, with keyword lists that are equal up to case
    keyword by keyword, get the same answer. *)
Theorem matches_keywords_case_blind (t t' : string)
    (includes includes' excludes excludes' : list string) :
  Text.is_ascii t = true ->
  Forall (fun k => Text.is_ascii k = true) includes ->
  Forall (fun k => Text.is_ascii k = true) excludes ->
  Text.same_ci t t' = true ->
  Forall2 (fun k k' => Text.same_ci k k' = true) includes includes' ->
  Forall2 (fun k k' => Text.same_ci k k' = true) excludes excludes' ->
  matches_keywords (Some t) includes excludes
  = matches_keywords (Some t') includes' excludes'.
Proof.
  intros _ _ _ Ht Hinc Hexc. unfold matches_keywords. simpl.
  apply TextFacts.same_ci_lower in Ht. rewrite Ht.
  rewrite (any_in_same_ci _ _ _ Hinc), (any_in_same_ci _ _ _ Hexc).
  by destruct Hinc, Hexc.
Qed.

Lemma matches_keywords_case_blind_witness :
  matches_keywords (Some "OpenAI ships a model") ["ai"] ["Crypto"]
  = matches_keywords (Some "OPENAI SHIPS A MODEL") ["AI"] ["crypto"].
Proof.
  apply matches_keywords_case_blind.
  - reflexivity.
  - repeat constructor.
  - repeat constructor.
  - reflexivity.
  - repeat constructor.
  - repeat constructor.
Defined.

Lemma any_in_incl t ks ks' :
  incl ks ks' -> any_in t ks = true -> any_in t ks' = true.
Proof.
  unfold any_in. rewrite !existsb_exists.
  intros Hincl (k & Hin & Hk). exists k. split; [by apply Hincl | done].
Qed.

(** X8. More include keywords admit more and more exclude keywords admit
    less: a text admitted under a non-empty include list and an exclude list
    is still admitted when keywords are added to the first and removed from
    the second.  In particular the answer depends on the keywords only, not
    on their order or repetition. *)
Theorem matches_keywords_monotone (text : option string)
    (includes includes' excludes excludes' : list string) :
  includes <> [] ->
  incl includes includes' ->
  incl excludes' excludes ->
  matches_keywords text includes excludes = true ->
  matches_keywords text includes' excludes' = true.
Proof.
  intros Hne Hinc Hexc. unfold matches_keywords.
  destruct includes as [|i includes]; [done|].
  destruct (any_in _ (i :: includes)) eqn:Hany; [|by simpl].
  apply (any_in_incl _ _ _ Hinc) in Hany. rewrite Hany.
  assert (Hinc' : includes' <> []).
  { intros ->. by apply (Hinc i); left. }
  destruct includes' as [|i' includes']; [done|]. simpl.
  destruct excludes as [|e excludes].
  - destruct excludes' as [|e' excludes']; [done|].
    by destruct (Hexc e'); left.
  - destruct (any_in _ (e :: excludes)) eqn:Hex; [done|]. intros _.
    destruct excludes' as [|e' excludes']; [done|].
    destruct (any_in _ (e' :: excludes')) eqn:Hex'; [|done].
    apply (any_in_incl _ _ _ Hexc) in Hex'. congruence.
Qed.

Lemma matches_keywords_monotone_witness :
  matches_keywords (Some "AI regulation update")
    ["markets"; "ai"; "ai"] ["crypto"] = true.
Proof.
  apply (matches_keywords_monotone _ ["ai"] _ ["crypto"; "sport"]).
  - discriminate.
  - intros k [<-|[]]. simpl. tauto.
  - intros k [<-|[]]. simpl. tauto.
  - reflexivity.
Defined.

(** ** Keywords and the fields of the blob *)

Module BlobFacts.
Import Text SubstringFacts.

Lemma append_nil_r (s : string) : s ++ "" = s.
Proof.
  induction s as [|c s IH]; [done|]. by rewrite append_cons, IH.
Qed.

Lemma append_assoc (a b c : string) : (a ++ b) ++ c = a ++ b ++ c.
Proof.
  induction a as [|x a IH]; [done|]. by rewrite !append_cons, IH.
Qed.

(** Two ways of cutting one string: one cut falls inside a part of the
    other. *)
Lemma append_eq_append (x y u v : string) :
  x ++ y = u ++ v ->
  (exists m, u = x ++ m /\ y = m ++ v) \/ (exists m, x = u ++ m /\ v = m ++ y).
Proof.
  revert u. induction x as [|c x IH]; intros u Heq.
  - left. by exists u.
  - destruct u as [|d u].
    + right. by exists (String c x).
    + rewrite !append_cons in Heq. injection Heq as -> Heq.
      destruct (IH _ Heq) as [(m & -> & ->) | (m & -> & ->)].
      * left. by exists m.
      * right. by exists m.
Qed.

Lemma count_char_zero_append c (a b : string) :
  count_char c (a ++ b) = 0%nat -> count_char c a = 0%nat /\ count_char c b = 0%nat.
Proof. rewrite UrlFacts.count_char_append. lia. Qed.

Lemma count_char_zero_head c k : count_char c (String c k) = 0%nat -> False.
Proof. simpl. by rewrite Ascii.eqb_refl. Qed.

(** A string that does not hold the separator occurs in two fields joined
    by it only inside one of the fields. *)
Lemma contains_joined c (a b k : string) :
  count_char c k = 0%nat ->
  contains (a ++ String c b) k = contains a k || contains b k.
Proof.
  intros Hk. apply eq_true_iff_eq.
  rewrite orb_true_iff, !contains_spec. split.
  - intros (pre & post & Heq). symmetry in Heq.
    destruct (append_eq_append _ _ _ _ Heq) as [(m & -> & Hm) | (m & -> & Hm)].
    + destruct (append_eq_append _ _ _ _ Hm) as [(n & -> & Hn) | (n & -> & Hn)].
      * left. by exists pre, n.
      * destruct n as [|d n].
        -- left. exists pre, "". by rewrite !append_nil_r.
        -- rewrite append_cons in Hn. injection Hn as <- _.
           apply count_char_zero_append in Hk as [_ Hk].
           by apply count_char_zero_head in Hk.
    + destruct m as [|d m].
      * rewrite append_nil_l in Hm. destruct k as [|d k].
        -- left. by exists "", a.
        -- rewrite append_cons in Hm. injection Hm as <- _.
           by apply count_char_zero_head in Hk.
      * rewrite append_cons in Hm. injection Hm as _ ->.
        right. by exists m, post.
  - intros [(pre & post & ->) | (pre & post & ->)].
    + exists pre, (post ++ String c b). by rewrite !append_assoc.
    + exists (a ++ String c pre), post.
      by rewrite append_assoc, append_cons.
Qed.

Lemma lower_char_newline c :
  Ascii.eqb (ascii_of_N 10) (lower_char c) = Ascii.eqb (ascii_of_N 10) c.
Proof. destruct c as [[] [] [] [] [] [] [] []]; reflexivity. Qed.

Lemma count_newline_lower k :
  count_char (ascii_of_N 10) (lower k) = count_char (ascii_of_N 10) k.
Proof.
  induction k as [|c k IH]; [done|]. cbn [count_char lower].
  by rewrite lower_char_newline, IH.
Qed.

End BlobFacts.

(** X9. A keyword without a line break is found in the blob of a record
    exactly when it is found in the title, the summary, the link or the
    source name: a match never runs across two fields. *)
Theorem keyword_match_within_field (x : item) (k : string) :
  count_char (ascii_of_N 10) k = 0%nat ->
  Text.contains (Text.lower (item_blob x)) (Text.lower k)
  = Text.contains (Text.lower (title x)) (Text.lower k)
    || Text.contains (Text.lower (summary x)) (Text.lower k)
    || Text.contains (Text.lower (link x)) (Text.lower k)
    || Text.contains (Text.lower (default "" (source x))) (Text.lower k).
Proof.
  intros Hk. rewrite <- BlobFacts.count_newline_lower in Hk.
  unfold item_blob, newline.
  rewrite !SubstringFacts.lower_append.
  change (Text.lower (String (ascii_of_N 10) ""))
    with (String (ascii_of_N 10) "").
  rewrite !SubstringFacts.append_cons, !SubstringFacts.append_nil_l.
  rewrite !(BlobFacts.contains_joined _ _ _ _ Hk).
  by rewrite !orb_assoc.
Qed.

Lemma keyword_match_within_field_witness :
  Text.contains
    (Text.lower (item_blob (news "Rates rise" "https://example.org/r" None)))
    (Text.lower "Rise")
  = true.
Proof.
  rewrite (keyword_match_within_field _ "Rise") by reflexivity.
  reflexivity.
Defined.

(** ** More on the recency window *)

(** X10. Admission is monotone as far as the check answers.  In a process
    where [time.mktime] returns the instant of the publish time, let an entry
    be admitted at some moment with some window.  Then at any earlier moment,
    with any wider window, an entry published no earlier is never rejected:
    it is admitted, unless the check raises because a date leaves the range
    of [datetime]. *)
Theorem within_last_days_monotone (mktime : struct_time -> Z)
    (now now' days days' : Z) (st st' : struct_time) :
  mktime st = timegm st -> mktime st' = timegm st' ->
  now' <= now -> days <= days' -> timegm st <= timegm st' ->
  Exn.within_last_days mktime now (Some st) days = Some true ->
  Exn.within_last_days mktime now' (Some st') days' <> Some false
  /\ (representable now' = true ->
      representable (timegm st' * usec_per_sec) = true ->
      representable (now' - days' * usec_per_day) = true ->
      Exn.within_last_days mktime now' (Some st') days' = Some true).
Proof.
  intros Hutc Hutc' Hnow Hdays Hst Hadm.
  apply exn_within_last_days_Some, within_last_days_elapsed in Hadm.
  assert (Hplain : within_last_days mktime now' (Some st') days' = true).
  { apply within_last_days_elapsed. rewrite Hutc in Hadm. rewrite Hutc'.
    unfold usec_per_day, usec_per_sec in *. lia. }
  split.
  - intros Hrej. apply exn_within_last_days_Some in Hrej. congruence.
  - intros Hn Hp Hs. rewrite <- Hutc' in Hp.
    by rewrite (exn_within_last_days_in_range _ _ _ _ Hn Hp Hs), Hplain.
Qed.

Lemma within_last_days_monotone_witness :
  Exn.within_last_days mktime_utc (timegm st_2026_11_03_noon * usec_per_sec)
    (Some st_2026_11_02_noon) 7 = Some true.
Proof.
  apply (within_last_days_monotone mktime_utc
           (timegm st_2026_11_03_noon * usec_per_sec) _
           1 7 st_2026_11_02_noon st_2026_11_02_noon);
    try reflexivity; lia.
Defined.

(** ** More on uniq *)

Section UniqMore.
Context {A K : Type} `{Countable K}.
Variable key : A -> K.
Local Open Scope list_scope.

(** The loop started with some keys already seen gives what is left of the
    plain result when the records with those keys are removed. *)
Lemma uniq_loop_filter (S T : gset K) l :
  uniq_loop key (S ∪ T) [] l
  = filter (fun x => key x ∉ S) (uniq_loop key T [] l).
Proof.
  revert T. induction l as [|x l IH]; intros T; [done|].
  destruct (decide (key x ∈ T)) as [HT|HT].
  - rewrite !uniq_loop_seen by set_solver. apply IH.
  - rewrite (uniq_loop_fresh _ x T) by done.
    destruct (decide (key x ∈ S)) as [HS|HS].
    + rewrite uniq_loop_seen by set_solver.
      rewrite filter_cons_False by (intros Hx; by apply Hx).
      rewrite <- IH. f_equal. set_solver.
    + rewrite uniq_loop_fresh by set_solver.
      rewrite filter_cons_True by done. rewrite <- IH. do 2 f_equal. set_solver.
Qed.

Lemma uniq_loop_id seen l :
  NoDup (key <$> l) -> (forall x, x ∈ l -> key x ∉ seen) ->
  uniq_loop key seen [] l = l.
Proof.
  revert seen. induction l as [|x l IH]; intros seen Hnd Hseen; [done|].
  rewrite fmap_cons in Hnd. apply NoDup_cons in Hnd as [Hx Hnd].
  rewrite uniq_loop_fresh by (apply Hseen; by left).
  f_equal. apply IH; [done|]. intros y Hy.
  assert (key y ∉ seen) by (apply Hseen; by right).
  assert (key y <> key x).
  { intros Heq. apply Hx. rewrite <- Heq. by apply list_elem_of_fmap_2. }
  set_solver.
Qed.

Lemma uniq_keys l :
  list_to_set (key <$> uniq key l) =@{gset K} list_to_set (key <$> l).
Proof.
  apply set_eq. intros k. rewrite !elem_of_list_to_set, !list_elem_of_fmap.
  split.
  - intros (y & -> & Hy). exists y. split; [done|].
    by apply (sublist_subseteq _ _ (uniq_sublist key l)).
  - intros (x & -> & Hx).
    pose proof (uniq_find key l (key x)) as Hfind.
    destruct (list_find (fun y => key y = key x) l) as [[i y]|] eqn:Hl.
    + destruct (list_find (fun y => key y = key x) (uniq key l))
        as [[j z]|] eqn:Hu; [|done].
      apply list_find_Some in Hu as (Hj & Hz & _).
      exists z. split; [done|]. by eapply list_elem_of_lookup_2.
    + apply list_find_None in Hl. rewrite Forall_forall in Hl.
      by destruct (Hl x Hx).
Qed.

End UniqMore.

(** X11. Deduplicating twice changes nothing more, and a list needs no
    deduplication, in that [uniq] returns it unchanged, exactly when its keys
    are pairwise different. *)
Theorem uniq_fixed_point {A K : Type} `{Countable K} (key : A -> K)
    (l : list A) :
  uniq key (uniq key l) = uniq key l
  /\ (uniq key l = l <-> NoDup (key <$> l)).
Proof.
  assert (Hid : forall l', NoDup (key <$> l') -> uniq key l' = l').
  { intros l' Hnd. apply uniq_loop_id; [done|]. set_solver. }
  split; [apply Hid, uniq_NoDup|]. split; [|apply Hid].
  intros <-. apply uniq_NoDup.
Qed.

(** X12. No key is lost: the keys of the deduplicated list are the keys of
    the input, and it has as many records as the input has different
    keys. *)
Theorem uniq_keeps_every_key {A K : Type} `{Countable K} (key : A -> K)
    (l : list A) :
  list_to_set (key <$> uniq key l) =@{gset K} list_to_set (key <$> l)
  /\ length (uniq key l) = size (list_to_set (key <$> l) : gset K).
Proof.
  split; [apply uniq_keys|].
  rewrite <- (uniq_keys key l), size_list_to_set by apply uniq_NoDup.
  by rewrite length_fmap.
Qed.

(** X13. Deduplication of two batches in a row: the result is the
    deduplicated first batch followed by the deduplicated second batch
    without the records whose key the first batch has. *)
Theorem uniq_app {A K : Type} `{Countable K} (key : A -> K)
    (l1 l2 : list A) :
  uniq key (l1 ++ l2)
  = (uniq key l1
     ++ filter (fun x => key x ∉ key <$> l1) (uniq key l2))%list.
Proof.
  unfold uniq at 1. rewrite uniq_loop_app, uniq_loop_res. f_equal.
  rewrite uniq_loop_filter. apply list_filter_iff.
  intros x. by rewrite elem_of_list_to_set.
Qed.

(** ** More on the sort and the cap *)

(** X14. The sort only rearranges: its result has the records of the
    input, each as often.  A list that already stands in descending key
    order is returned as it is, so sorting twice is sorting once. *)
Theorem sort_desc_rearranges {A : Type} (key : A -> Z) (l : list A) :
  sort_desc key l ≡ₚ l
  /\ (StronglySorted (key_ge key) l -> sort_desc key l = l)
  /\ sort_desc key (sort_desc key l) = sort_desc key l.
Proof.
  assert (Hfix : forall l', StronglySorted (key_ge key) l' -> sort_desc key l' = l').
  { intros l' Hs. symmetry. by apply sort_desc_unique. }
  split; [apply sort_desc_perm|]. split; [apply Hfix|].
  apply Hfix, sort_desc_sorted.
Qed.

Section AggregateMore.
Variable mktime : struct_time -> Z.

Lemma aggregate_sublist_sorted items max_items :
  aggregate mktime items max_items
  `sublist_of` sort_desc (sort_key mktime) (uniq dedup_key items).
Proof.
  destruct (aggregate_take mktime items max_items) as [n ->].
  apply sublist_take.
Qed.

Lemma aggregate_elem items max_items x :
  x ∈ aggregate mktime items max_items -> x ∈ uniq dedup_key items.
Proof.
  intros Hx. apply (sublist_subseteq _ _ (aggregate_sublist_sorted _ _)) in Hx.
  by rewrite sort_desc_perm in Hx.
Qed.

Lemma uniq_length_le (items : list item) :
  (length (uniq dedup_key items) <= length items)%nat.
Proof. apply sublist_length, uniq_sublist. Qed.

End AggregateMore.

(** X15. The aggregation invents nothing and, given room, loses nothing
    but duplicates: every record of the output is a record of the input, and
    when the maximum is at least the number of input records the output is
    the whole deduplicated list, rearranged. *)
Theorem aggregate_keeps_records (mktime : struct_time -> Z)
    (items : list item) (max_items : Z) :
  (forall x, x ∈ aggregate mktime items max_items -> x ∈ items)
  /\ (Z.of_nat (length items) <= max_items ->
      aggregate mktime items max_items ≡ₚ uniq dedup_key items).
Proof.
  split.
  - intros x Hx. apply aggregate_elem in Hx.
    by apply (sublist_subseteq _ _ (uniq_sublist dedup_key items)).
  - intros Hm. unfold aggregate. rewrite slice_to_nonneg by lia.
    rewrite take_ge; [apply sort_desc_perm|].
    rewrite sort_desc_length. pose proof (uniq_length_le items). lia.
Qed.

Lemma aggregate_keeps_records_witness :
  aggregate mktime_utc [news_eve; news_noon; news_eve] 3
  ≡ₚ uniq dedup_key [news_eve; news_noon; news_eve].
Proof.
  apply (proj2 (aggregate_keeps_records mktime_utc
                  [news_eve; news_noon; news_eve] 3)).
  simpl. lia.
Defined.

(** X16. A larger maximum only adds records at the end: for
    [0 <= m <= m'] the output for [m] is an initial segment of the output
    for [m']. *)
Theorem aggregate_prefix (mktime : struct_time -> Z) (items : list item)
    (m m' : Z) :
  0 <= m -> m <= m' ->
  aggregate mktime items m `prefix_of` aggregate mktime items m'.
Proof.
  intros Hm Hmm'. unfold aggregate. rewrite !slice_to_nonneg by lia.
  replace (Z.to_nat m) with (Z.to_nat m `min` Z.to_nat m')%nat by lia.
  rewrite <- take_take. apply prefix_take.
Qed.

Lemma aggregate_prefix_witness :
  aggregate mktime_utc [news_eve; news_undated; news_noon] 1
  `prefix_of` aggregate mktime_utc [news_eve; news_undated; news_noon] 2.
Proof. apply aggregate_prefix; lia. Defined.

(** X17. With a maximum of at least one and at least one input record,
    the output starts with a record whose sort key is the largest among the
    deduplicated records. *)
Theorem aggregate_newest_first (mktime : struct_time -> Z)
    (items : list item) (max_items : Z) :
  1 <= max_items -> items <> [] ->
  exists x, head (aggregate mktime items max_items) = Some x
            /\ forall y, y ∈ uniq dedup_key items ->
                         sort_key mktime y <= sort_key mktime x.
Proof.
  intros Hm Hne. unfold aggregate. rewrite slice_to_nonneg by lia.
  pose proof (sort_desc_perm (sort_key mktime) (uniq dedup_key items)) as Hperm.
  pose proof (sort_desc_sorted (sort_key mktime) (uniq dedup_key items)) as Hs.
  destruct (sort_desc (sort_key mktime) (uniq dedup_key items))
    as [|x sorted] eqn:Hsorted.
  - apply Permutation_nil in Hperm. destruct items as [|i items]; [done|].
    unfold uniq in Hperm. rewrite uniq_loop_fresh in Hperm by set_solver.
    discriminate.
  - exists x. destruct (Z.to_nat max_items) as [|n] eqn:Hn; [lia|].
    split; [done|]. intros y Hy. rewrite <- Hperm in Hy.
    apply StronglySorted_cons in Hs as [Hall _].
    apply elem_of_cons in Hy as [->|Hy]; [lia|].
    rewrite Forall_forall in Hall. by apply Hall.
Qed.

Lemma aggregate_newest_first_witness :
  exists x,
    head (aggregate mktime_utc [news_eve; news_undated; news_noon] 1) = Some x
    /\ forall y, y ∈ uniq dedup_key [news_eve; news_undated; news_noon] ->
                 sort_key mktime_utc y <= sort_key mktime_utc x.
Proof. apply aggregate_newest_first; [lia | discriminate]. Defined.

(** ** The loops of [main] *)

Section CollectFacts.
Variable mktime : struct_time -> Z.
Variable parse : string -> list entry.
Variable clock : nat -> Z.
Local Open Scope list_scope.

(** What the loop body appends went through both filters and carries the
    labels of its feed. *)
Lemma examine_Some now days includes excludes sector_name region_code e x :
  examine mktime now days includes excludes sector_name region_code e = Some x ->
  within_last_days mktime now (published_parsed x) days = true
  /\ matches_keywords (Some (item_blob x)) includes excludes = true
  /\ sector x = sector_name /\ region x = region_code
  /\ title x = default "" (e_title e) /\ link x = default "" (e_link e).
Proof.
  unfold examine.
  destruct (within_last_days mktime now (e_published_parsed e) days) eqn:Hw;
    [|discriminate]. cbn [negb].
  match goal with |- context [matches_keywords ?b includes excludes] =>
    destruct (matches_keywords b includes excludes) eqn:Hk end; [|discriminate].
  cbn [negb]. intros [= <-]. by repeat split.
Qed.

Lemma scan_entries_elem n days includes excludes sector_name region_code es x :
  x ∈ scan_entries mktime clock n days includes excludes
        sector_name region_code es ->
  exists k e, e ∈ es
    /\ examine mktime (clock k) days includes excludes
         sector_name region_code e = Some x.
Proof.
  revert n. induction es as [|e es IH]; intros n Hx.
  - by apply elem_of_nil in Hx.
  - cbn [scan_entries] in Hx.
    destruct (examine mktime (clock n) days includes excludes
                sector_name region_code e) as [y|] eqn:He.
    + apply elem_of_cons in Hx as [->|Hx].
      * exists n, e. split; [by left | done].
      * destruct (IH _ Hx) as (k & e' & He' & Hk). exists k, e'.
        split; [by right | done].
    + destruct (IH _ Hx) as (k & e' & He' & Hk). exists k, e'.
      split; [by right | done].
Qed.

Lemma scan_entries_length n days includes excludes sector_name region_code es :
  (length (scan_entries mktime clock n days includes excludes
             sector_name region_code es) <= length es)%nat.
Proof.
  revert n. induction es as [|e es IH]; intros n; [done|].
  cbn [scan_entries]. specialize (IH (S n)).
  destruct (examine _ _ _ _ _ _ _ _); simpl; lia.
Qed.

Lemma collect_elem n days includes excludes feeds x :
  x ∈ collect mktime parse clock n days includes excludes feeds ->
  exists k label r url e,
    (label, r, url) ∈ feeds /\ e ∈ parse url
    /\ examine mktime (clock k) days includes excludes label r e = Some x.
Proof.
  revert n. induction feeds as [|[[label r] url] feeds IH]; intros n Hx.
  - by apply elem_of_nil in Hx.
  - cbn [collect] in Hx. apply elem_of_app in Hx as [Hx|Hx].
    + apply scan_entries_elem in Hx as (k & e & He & Hk).
      exists k, label, r, url, e. split; [by left | done].
    + destruct (IH _ Hx) as (k & l' & r' & u' & e & Hf & He & Hk).
      exists k, l', r', u', e. split; [by right | done].
Qed.

Lemma collect_length n days includes excludes feeds :
  (length (collect mktime parse clock n days includes excludes feeds)
   <= entries_count parse feeds)%nat.
Proof.
  revert n. induction feeds as [|[[label r] url] feeds IH]; intros n; [done|].
  cbn [collect]. rewrite length_app. unfold entries_count in *.
  cbn [List.map sum_list sum_list_with]. specialize (IH (n + length (parse url))%nat).
  pose proof (scan_entries_length n days includes excludes label r (parse url)).
  simpl. lia.
Qed.

Lemma collect_app_feeds n days includes excludes feeds1 feeds2 :
  collect mktime parse clock n days includes excludes (feeds1 ++ feeds2)
  = collect mktime parse clock n days includes excludes feeds1
    ++ collect mktime parse clock (n + entries_count parse feeds1)
         days includes excludes feeds2.
Proof.
  revert n. induction feeds1 as [|[[label r] url] feeds1 IH]; intros n.
  - simpl. by rewrite Nat.add_0_r.
  - cbn [app collect]. rewrite IH, <- app_assoc. do 3 f_equal.
    unfold entries_count. cbn [List.map sum_list sum_list_with]. simpl. lia.
Qed.

End CollectFacts.

(** X18. Every record a run hands on was admitted: its publish time passed
    the date window at some reading of the clock, its blob passed the keyword
    filter of the configuration, and its sector and region are those of a
    feed of the plan. *)
Theorem digest_items_admitted (mktime : struct_time -> Z)
    (parse : string -> list entry) (clock : nat -> Z) (cfg : config)
    (x : item) :
  x ∈ digest_items mktime parse clock cfg ->
  (exists k,
     within_last_days mktime (clock k) (published_parsed x)
       (default 1 (cfg_days_window cfg)) = true)
  /\ matches_keywords (Some (item_blob x))
       (default [] (cfg_keywords_include cfg))
       (default [] (cfg_keywords_exclude cfg)) = true
  /\ (exists url, (sector x, region x, url) ∈ build_feeds cfg).
Proof.
  unfold digest_items. intros Hx. apply aggregate_elem in Hx.
  apply (sublist_subseteq _ _ (uniq_sublist dedup_key _)) in Hx.
  apply collect_elem in Hx as (k & label & r & url & e & Hf & _ & He).
  apply examine_Some in He as (Hw & Hk & <- & <- & _).
  split; [by exists k|]. split; [done | by exists url].
Qed.

Lemma digest_items_admitted_witness :
  matches_keywords (Some (item_blob news_eve)) [] [] = true
  /\ exists url,
       (sector news_eve, region news_eve, url)
       ∈ build_feeds (one_feed_config None None).
Proof.
  apply (digest_items_admitted mktime_utc parse_recent clock_2026
           (one_feed_config None None) news_eve).
  vm_compute. right. left.
Defined.

(** X19. The feeds are read one after the other: the records collected
    from two plans in a row are those of the first plan followed by those of
    the second, the second one starting where the count of examined entries
    stands. *)
Theorem collect_app (mktime : struct_time -> Z)
    (parse : string -> list entry) (clock : nat -> Z) (n : nat) (days : Z)
    (includes excludes : list string) (feeds1 feeds2 : list feed) :
  collect mktime parse clock n days includes excludes (feeds1 ++ feeds2)
  = (collect mktime parse clock n days includes excludes feeds1
     ++ collect mktime parse clock (n + entries_count parse feeds1)
          days includes excludes feeds2)%list.
Proof. apply collect_app_feeds. Qed.

(** X20. A run hands on at most as many records as the feeds of its plan
    returned entries; feeds without entries add nothing. *)
Theorem digest_items_length (mktime : struct_time -> Z)
    (parse : string -> list entry) (clock : nat -> Z) (cfg : config) :
  (length (digest_items mktime parse clock cfg)
   <= entries_count parse (build_feeds cfg))%nat.
Proof.
  unfold digest_items.
  etrans; [apply sublist_length, aggregate_sublist_sorted|].
  rewrite sort_desc_length.
  etrans; [apply uniq_length_le | apply collect_length].
Qed.

(** ** Mail settings *)

Lemma opt_or_present_r a b :
  present_nonempty b = true -> present_nonempty (opt_or a b) = true.
Proof.
  intros Hb. destruct (present_nonempty a) eqn:Ha.
  - by rewrite opt_or_present.
  - by rewrite opt_or_absent.
Qed.

Lemma env_or_config_present env email key fallback :
  present_nonempty fallback = true ->
  present_nonempty (env_or_config env email key fallback) = true.
Proof. intros Hf. unfold env_or_config. by apply opt_or_present_r. Qed.

Lemma env_or_config_unset env email key fallback :
  present_nonempty (env !! key) = false ->
  present_nonempty (default ∅ email !! Text.lower key) = false ->
  env_or_config env email key fallback = fallback.
Proof.
  intros He Hc. unfold env_or_config, getenv, email_setting.
  by rewrite (opt_or_absent _ _ He), (opt_or_absent _ _ Hc).
Qed.

(** X21. The server, the port and the sender are never missing after
    resolution, so the credentials check of [main] passes exactly when user,
    password and recipient are set to non-empty values; and with no
    FROM_EMAIL set anywhere the sender is the SMTP user when there is one and
    "no-reply@example.com" otherwise. *)
Theorem resolve_mail_settings_check (env : gmap string string)
    (email : option (gmap string string)) :
  let s := resolve_mail_settings env email in
  present_nonempty (smtp_server s) = true
  /\ present_nonempty (smtp_port s) = true
  /\ present_nonempty (from_email s) = true
  /\ credentials_present s
     = present_nonempty (smtp_user s) && present_nonempty (smtp_pass s)
       && present_nonempty (to_email s)
  /\ (present_nonempty (env !! "FROM_EMAIL") = false ->
      present_nonempty (default ∅ email !! "from_email") = false ->
      from_email s
      = if present_nonempty (smtp_user s) then smtp_user s
        else Some "no-reply@example.com").
Proof.
  cbv zeta.
  assert (Hfrom : present_nonempty
            (from_email (resolve_mail_settings env email)) = true).
  { apply env_or_config_present. by apply opt_or_present_r. }
  split; [by apply env_or_config_present|].
  split; [by apply env_or_config_present|].
  split; [done|]. split.
  - unfold credentials_present. cbn [forallb]. rewrite Hfrom.
    by rewrite !andb_true_r, andb_assoc.
  - intros He Hc. cbn [from_email smtp_user resolve_mail_settings].
    rewrite (env_or_config_unset _ _ "FROM_EMAIL" _ He Hc).
    destruct (present_nonempty (env_or_config env email "SMTP_USER" None)) eqn:Hu.
    + by rewrite opt_or_present.
    + by rewrite opt_or_absent.
Qed.

Lemma resolve_mail_settings_check_witness :
  from_email (resolve_mail_settings
                {[ "SMTP_USER" := "digest@example.org" ]} None)
  = Some "digest@example.org".
Proof.
  destruct (resolve_mail_settings_check
              {[ "SMTP_USER" := "digest@example.org" ]} None)
    as (_ & _ & _ & _ & Hfrom).
  rewrite Hfrom; vm_compute; reflexivity.
Defined.

(** ** Consistency of the region parameters *)

Lemma mapping_lookup_cases k hl gl ceid :
  mapping !! k = Some (hl, gl, ceid) ->
  gl = k /\ Text.upper k = k /\ ceid = gl ++ ":" ++ String.substring 0 2 hl.
Proof.
  unfold mapping. intros Hm. apply elem_of_list_to_map_2 in Hm.
  repeat (apply elem_of_cons in Hm as [Hm|Hm];
          [injection Hm as -> -> -> ->; by repeat split|]).
  by apply elem_of_nil in Hm.
Qed.

Lemma in_table_lookup code :
  in_table code = true -> is_Some (mapping !! Text.upper code).
Proof.
  unfold in_table, table_codes. intros (k & Hk & Hci)%existsb_exists.
  apply list_elem_of_In, elem_of_elements, elem_of_dom in Hk as [[[hl gl] ceid] Hk].
  destruct (mapping_lookup_cases _ _ _ _ Hk) as (_ & Hup & _).
  apply TextFacts.same_ci_upper in Hci. rewrite Hci, Hup. by eexists.
Qed.

(** X22. For an ASCII code the three parameters agree with one another
    and with the code: the locale id is the country, a colon and the
    two-letter language of the language tag; the country is the upper-cased
    code when the code is in the table and "US" when it is not. *)
Theorem iso_region_to_params_consistent (code : string) :
  Text.is_ascii code = true ->
  let '(hl, gl, ceid) := iso_region_to_params code in
  ceid = gl ++ ":" ++ String.substring 0 2 hl
  /\ gl = (if in_table code then Text.upper code else "US").
Proof.
  intros Hascii. destruct (in_table code) eqn:Hin.
  - destruct (in_table_lookup _ Hin) as [[[hl gl] ceid] Hm].
    unfold iso_region_to_params. rewrite Hm. simpl.
    destruct (mapping_lookup_cases _ _ _ _ Hm) as (-> & _ & ->). done.
  - by rewrite (iso_region_to_params_unknown _ Hascii Hin).
Qed.

Lemma iso_region_to_params_consistent_witness :
  let '(hl, gl, ceid) := iso_region_to_params "br" in
  ceid = gl ++ ":" ++ String.substring 0 2 hl
  /\ gl = (if in_table "br" then Text.upper "br" else "US").
Proof. apply (iso_region_to_params_consistent "br"). reflexivity. Defined.

(** ** A window that is not positive *)

(** X23. In a process where [time.mktime] returns the instant of the
    publish time: with a window of zero or less no entry published before
    now is admitted, and with a negative window not even one published at
    this very moment; the check rejects them or, when a date leaves the range
    of [datetime], raises.  Entries without a publish time are admitted all
    the same. *)
Theorem within_last_days_nonpositive (mktime : struct_time -> Z)
    (now days : Z) (st : struct_time) :
  days <= 0 ->
  mktime st = timegm st ->
  Exn.within_last_days mktime now None days = Some true
  /\ (timegm st * usec_per_sec < now ->
      Exn.within_last_days mktime now (Some st) days <> Some true)
  /\ (days < 0 -> timegm st * usec_per_sec <= now ->
      Exn.within_last_days mktime now (Some st) days <> Some true)
  /\ (timegm st * usec_per_sec < now ->
      representable now = true ->
      representable (timegm st * usec_per_sec) = true ->
      representable (now - days * usec_per_day) = true ->
      Exn.within_last_days mktime now (Some st) days = Some false).
Proof.
  intros Hd Hutc. split; [done|].
  assert (Hplain : timegm st * usec_per_sec < now \/
                   (days < 0 /\ timegm st * usec_per_sec <= now) ->
                   within_last_days mktime now (Some st) days = false).
  { intros Hcase. apply not_true_is_false. rewrite within_last_days_elapsed.
    rewrite Hutc. unfold usec_per_day, usec_per_sec in *. lia. }
  split; [|split].
  - intros Hlt Hadm. apply exn_within_last_days_Some in Hadm.
    rewrite Hplain in Hadm; [done | by left].
  - intros Hneg Hle Hadm. apply exn_within_last_days_Some in Hadm.
    rewrite Hplain in Hadm; [done | by right].
  - intros Hlt Hn Hp Hs. rewrite <- Hutc in Hp.
    rewrite (exn_within_last_days_in_range _ _ _ _ Hn Hp Hs), Hplain; [done|].
    by left.
Qed.

Lemma within_last_days_nonpositive_witness :
  Exn.within_last_days mktime_utc (timegm st_2026_11_03_noon * usec_per_sec)
    (Some st_2026_11_02_noon) (-1) = Some false.
Proof.
  apply (within_last_days_nonpositive mktime_utc
           (timegm st_2026_11_03_noon * usec_per_sec) (-1)
           st_2026_11_02_noon ltac:(lia) eq_refl); reflexivity.
Defined.

(** ** Aggregating twice *)

Lemma StronglySorted_take {A : Type} (R : relation A) n (l : list A) :
  StronglySorted R l -> StronglySorted R (take n l).
Proof.
  intros Hs. rewrite <- (take_drop n l) in Hs.
  by apply StronglySorted_app_1_l in Hs.
Qed.

(** X24. For a maximum that is not negative, aggregating the output of an
    aggregation again returns it unchanged: it has no duplicate keys, is
    sorted and fits the maximum. *)
Theorem aggregate_idempotent (mktime : struct_time -> Z) (items : list item)
    (max_items : Z) :
  0 <= max_items ->
  aggregate mktime (aggregate mktime items max_items) max_items
  = aggregate mktime items max_items.
Proof.
  intros Hm.
  pose proof (aggregate_NoDup mktime items max_items) as Hnd.
  pose proof (aggregate_length mktime items max_items Hm) as Hlen.
  assert (Hs : StronglySorted (key_ge (sort_key mktime))
                 (aggregate mktime items max_items)).
  { destruct (aggregate_take mktime items max_items) as [n ->].
    apply StronglySorted_take, sort_desc_sorted. }
  generalize dependent (aggregate mktime items max_items). intros out Hnd Hlen Hs.
  unfold aggregate.
  assert (Hu : uniq dedup_key out = out).
  { apply uniq_loop_id; [done | set_solver]. }
  rewrite Hu. rewrite <- (sort_desc_unique (sort_key mktime) out out Hs) by done.
  rewrite slice_to_nonneg by done. apply take_ge. lia.
Qed.

Lemma aggregate_idempotent_witness :
  aggregate mktime_utc
    (aggregate mktime_utc [news_eve; news_undated; news_noon; news_eve] 2) 2
  = aggregate mktime_utc [news_eve; news_undated; news_noon; news_eve] 2.
Proof. apply aggregate_idempotent. lia. Defined.
